(** * Grey Wolf Optimizer: a shallow embedding of [main.py]

    The class [GWO] of [main.py] is embedded as a record holding the fields
    of [self]; its two methods, [__init__] and [optimize], become the
    functions [init] and [optimize] below.

    Modelling choices.
    - NumPy's [float64] coordinates are exact rationals ([Q]): rounding and
      overflow are outside the model.  Fitness values and leader scores
      live in [score], the rationals extended by the three special values
      a float can take (the source itself introduces [float("inf")]).
    - [np.random] is a global generator.  The values its successive calls
      return are a parameter, the stream [random_sample]; the generator's
      state is the index of the next value to hand out.
    - Calling the objective is the only externally visible effect of the
      evaluation loop; the arguments it receives are logged, in call order.
    - Console output ([print]) and the plotting script are left out. *)

From Stdlib Require Import ZArith QArith Qabs List Bool Lia Lqa SpecFloat.
Import ListNotations.

Set Implicit Arguments.

Local Open Scope Q_scope.

(** ** Scores: Python floats as far as comparisons see them *)

Inductive score : Type :=
| NaN
| NegInf
| Fin (q : Q)
| PosInf.

(** [x < y] on floats; any comparison with [NaN] is [False]. *)
Definition score_ltb (x y : score) : bool :=
  match x, y with
  | NaN, _ | _, NaN => false
  | NegInf, NegInf => false
  | NegInf, _ => true
  | Fin _, NegInf => false
  | Fin a, Fin b => negb (Qle_bool b a)
  | Fin _, PosInf => true
  | PosInf, _ => false
  end.

(** [x > y] is [y < x]. *)
Definition score_gtb (x y : score) : bool := score_ltb y x.

(** [x <= y] on floats. *)
Definition score_leb (x y : score) : bool :=
  match x, y with
  | NaN, _ | _, NaN => false
  | NegInf, _ => true
  | Fin _, NegInf => false
  | Fin a, Fin b => Qle_bool a b
  | Fin _, PosInf => true
  | PosInf, PosInf => true
  | PosInf, _ => false
  end.

(** [x == y] on floats. *)
Definition score_eqb (x y : score) : bool :=
  match x, y with
  | NegInf, NegInf => true
  | Fin a, Fin b => Qeq_bool a b
  | PosInf, PosInf => true
  | _, _ => false
  end.

Definition is_nan (x : score) : bool :=
  match x with NaN => true | _ => false end.

(** ** Arrays *)

(** [range(n)] for a Python integer [n]; empty when [n <= 0]. *)
Definition range (n : Z) : list nat := seq 0 (Z.to_nat n).

(** [np.zeros(n)] *)
Definition zeros (n : Z) : list Q := repeat 0 (Z.to_nat n).

(** [v[j]], for an index the loops keep in range. *)
Definition get (v : list Q) (j : nat) : Q := nth j v 0.

(** [m[i, :]] *)
Definition get_row (m : list (list Q)) (i : nat) : list Q := nth i m [].

(** [v[i] = x], in place. *)
Fixpoint set_nth {A : Type} (i : nat) (x : A) (v : list A) : list A :=
  match v, i with
  | [], _ => []
  | _ :: tl, O => x :: tl
  | hd :: tl, S i' => hd :: set_nth i' x tl
  end.

(** [m[i, j] = x], in place. *)
Definition set_cell (m : list (list Q)) (i j : nat) (x : Q) : list (list Q) :=
  set_nth i (set_nth j x (get_row m i)) m.

(** [np.clip(x, a_min, a_max)] on one element:
    [minimum(maximum(x, a_min), a_max)]. *)
Definition maximum (a b : Q) : Q := if Qle_bool a b then b else a.
Definition minimum (a b : Q) : Q := if Qle_bool b a then b else a.
Definition clip1 (x a_min a_max : Q) : Q := minimum (maximum x a_min) a_max.

(** [np.clip(v, a_min, a_max)] *)
Definition clip (v : list Q) (a_min a_max : Q) : list Q :=
  map (fun x => clip1 x a_min a_max) v.

(** ** The optimizer's state *)

Record GWO : Type := mkGWO {
  obj_func : list Q -> score;
  lb : Q;
  ub : Q;
  dim : Z;
  pop_size : Z;
  max_iter : Z;
  positions : list (list Q);
  alpha_pos : list Q;
  alpha_score : score;
  beta_pos : list Q;
  beta_score : score;
  delta_pos : list Q;
  delta_score : score;
  convergence_curve : list score
}.

(** The process running the optimizer: [self], the state of the global
    generator [np.random], and the log of the objective's arguments. *)
Record World : Type := mkWorld {
  self : GWO;
  rng : nat;
  evaluated : list (list Q)
}.

(** Field assignments [self.f = v]. *)
Definition set_positions (s : GWO) (p : list (list Q)) : GWO :=
  mkGWO (obj_func s) (lb s) (ub s) (dim s) (pop_size s) (max_iter s)
        p
        (alpha_pos s) (alpha_score s) (beta_pos s) (beta_score s)
        (delta_pos s) (delta_score s) (convergence_curve s).

Definition set_alpha (s : GWO) (p : list Q) (f : score) : GWO :=
  mkGWO (obj_func s) (lb s) (ub s) (dim s) (pop_size s) (max_iter s)
        (positions s)
        p f (beta_pos s) (beta_score s)
        (delta_pos s) (delta_score s) (convergence_curve s).

Definition set_beta (s : GWO) (p : list Q) (f : score) : GWO :=
  mkGWO (obj_func s) (lb s) (ub s) (dim s) (pop_size s) (max_iter s)
        (positions s)
        (alpha_pos s) (alpha_score s) p f
        (delta_pos s) (delta_score s) (convergence_curve s).

Definition set_delta (s : GWO) (p : list Q) (f : score) : GWO :=
  mkGWO (obj_func s) (lb s) (ub s) (dim s) (pop_size s) (max_iter s)
        (positions s)
        (alpha_pos s) (alpha_score s) (beta_pos s) (beta_score s)
        p f (convergence_curve s).

Definition set_convergence_curve (s : GWO) (c : list score) : GWO :=
  mkGWO (obj_func s) (lb s) (ub s) (dim s) (pop_size s) (max_iter s)
        (positions s)
        (alpha_pos s) (alpha_score s) (beta_pos s) (beta_score s)
        (delta_pos s) (delta_score s) c.

Definition set_self (w : World) (s : GWO) : World :=
  mkWorld s (rng w) (evaluated w).

(** ** The social hierarchy (lines 62-78)

    The [if]/[elif]/[elif] chain that files a freshly evaluated wolf among
    the three leaders.  The assignments are taken in the source's order:
    the scores and positions move down before the new leader is stored. *)
Definition update_leaders (s : GWO) (fitness : score) (wolf : list Q) : GWO :=
  if score_ltb fitness (alpha_score s) then
    let s := set_delta s (beta_pos s) (beta_score s) in
    let s := set_beta s (alpha_pos s) (alpha_score s) in
    set_alpha s wolf fitness
  else if score_gtb fitness (alpha_score s)
          && score_ltb fitness (beta_score s) then
    let s := set_delta s (beta_pos s) (beta_score s) in
    set_beta s wolf fitness
  else if score_gtb fitness (alpha_score s)
          && score_gtb fitness (beta_score s)
          && score_ltb fitness (delta_score s) then
    set_delta s wolf fitness
  else s.

(** Line 56: [self.positions[i, :] = np.clip(self.positions[i, :], lb, ub)] *)
Definition clip_wolf (w : World) (i : nat) : World :=
  let s := self w in
  set_self w (set_positions s
                (set_nth i (clip (get_row (positions s) i) (lb s) (ub s))
                         (positions s))).

(** One turn of the evaluation loop (lines 53-78): clip wolf [i] in place,
    evaluate it, file it among the leaders. *)
Definition evaluate_wolf (w : World) (i : nat) : World :=
  let w := clip_wolf w i in
  let wolf := get_row (positions (self w)) i in
  let fitness := obj_func (self w) wolf in
  mkWorld (update_leaders (self w) fitness wolf) (rng w)
          (evaluated w ++ [wolf]).

Definition evaluate_all (w : World) : World :=
  fold_left evaluate_wolf (range (pop_size (self w))) w.

(** ** The position update (lines 82-112) *)

(** [a = 2 - t * (2 / self.max_iter)] *)
Definition decay (t : nat) (max_iter : Z) : Q :=
  2 - inject_Z (Z.of_nat t) * (2 / inject_Z max_iter).

(** The pull of one leader on one coordinate, from its pair of draws:
    [A = 2*a*r1 - a], [C = 2*r2], [D = abs(C*leader - x)],
    [X = leader - A*D]. *)
Definition pull (a r1 r2 leader x : Q) : Q :=
  let A := 2 * a * r1 - a in
  let C := 2 * r2 in
  let D := Qabs (C * leader - x) in
  leader - A * D.

Section Generator.

(** The values [np.random]'s generator returns, call after call. *)
Variable random_sample : nat -> Q.

(** [np.random.random()]: hand out the next value. *)
Definition random (w : World) : Q * World :=
  (random_sample (rng w), mkWorld (self w) (S (rng w)) (evaluated w)).

(** The body of the inner loop (lines 91-112) for wolf [i], dimension [j]. *)
Definition update_coordinate (a : Q) (i : nat) (w : World) (j : nat) : World :=
  let '(r1, w) := random w in
  let '(r2, w) := random w in
  let X1 := pull a r1 r2 (get (alpha_pos (self w)) j)
                 (get (get_row (positions (self w)) i) j) in
  let '(r1, w) := random w in
  let '(r2, w) := random w in
  let X2 := pull a r1 r2 (get (beta_pos (self w)) j)
                 (get (get_row (positions (self w)) i) j) in
  let '(r1, w) := random w in
  let '(r2, w) := random w in
  let X3 := pull a r1 r2 (get (delta_pos (self w)) j)
                 (get (get_row (positions (self w)) i) j) in
  set_self w (set_positions (self w)
                (set_cell (positions (self w)) i j ((X1 + X2 + X3) / 3))).

Definition update_wolf (a : Q) (w : World) (i : nat) : World :=
  fold_left (update_coordinate a i) (range (dim (self w))) w.

Definition update_positions (a : Q) (w : World) : World :=
  fold_left (update_wolf a) (range (pop_size (self w))) w.

(** [self.convergence_curve.append(self.alpha_score)] *)
Definition record_best (w : World) : World :=
  set_self w (set_convergence_curve (self w)
                (convergence_curve (self w) ++ [alpha_score (self w)])).

(** The body of the main loop (lines 52-115) at iteration [t]. *)
Definition iteration (w : World) (t : nat) : World :=
  let w := evaluate_all w in
  let a := decay t (max_iter (self w)) in
  let w := update_positions a w in
  record_best w.

(** The first [k] turns of the main loop. *)
Definition iterate (k : nat) (w : World) : World :=
  fold_left iteration (seq 0 k) w.

(** [optimize]: the whole loop [for t in range(self.max_iter)]; the method
    returns [self.convergence_curve], kept here with the final state. *)
Definition optimize (w : World) : World :=
  fold_left iteration (range (max_iter (self w))) w.

(** ** The constructor (lines 20-42) *)

(** The only failure of [__init__]: NumPy refuses an array with a negative
    dimension. *)
Inductive exn : Type := ValueError.

(** One draw of [np.random.uniform(low, high)]. *)
Definition uniform (low high u : Q) : Q := low + (high - low) * u.

(** [np.random.uniform(low, high, (rows, cols))], filled row by row from
    the generator at state [g]. *)
Definition uniform_matrix (low high : Q) (rows cols : nat) (g : nat)
  : list (list Q) :=
  map (fun i =>
         map (fun j => uniform low high (random_sample (g + i * cols + j)))
             (seq 0 cols))
      (seq 0 rows).

Definition init (f : list Q -> score) (lower_bound upper_bound : Q)
           (dim wolf_count max_iter : Z) (g : nat) : exn + World :=
  if (wolf_count <? 0)%Z || (dim <? 0)%Z then inl ValueError
  else
    let rows := Z.to_nat wolf_count in
    let cols := Z.to_nat dim in
    inr (mkWorld
           (mkGWO f lower_bound upper_bound dim wolf_count max_iter
                  (uniform_matrix lower_bound upper_bound rows cols g)
                  (zeros dim) PosInf
                  (zeros dim) PosInf
                  (zeros dim) PosInf
                  [])
           (g + rows * cols)
           []).

(** ** Execution steps

    The statements the loops are made of, as a step relation; [reachable w0]
    collects the states the process can be in when it started from [w0]. *)
Inductive step : World -> World -> Prop :=
| step_evaluate (w : World) (i : nat) :
    In i (range (pop_size (self w))) ->
    step w (evaluate_wolf w i)
| step_update (a : Q) (i : nat) (w : World) (j : nat) :
    In i (range (pop_size (self w))) -> In j (range (dim (self w))) ->
    step w (update_coordinate a i w j)
| step_record (w : World) : step w (record_best w).

Inductive reachable (w0 : World) : World -> Prop :=
| reach_start : reachable w0 w0
| reach_step (w w' : World) : reachable w0 w -> step w w' -> reachable w0 w'.

(** ** The update rule in the specification's words

    The new coordinate [j] of a wolf whose coordinate is [x], when the
    generator is at state [g]: one pair of draws per leader, Alpha first,
    then Beta, then Delta, and the mean of the three pulls. *)
Definition spec_new_coordinate (a : Q) (alpha beta delta : list Q) (g : nat)
           (x : Q) (j : nat) : Q :=
  let X_alpha := pull a (random_sample g) (random_sample (g + 1))
                      (get alpha j) x in
  let X_beta := pull a (random_sample (g + 2)) (random_sample (g + 3))
                     (get beta j) x in
  let X_delta := pull a (random_sample (g + 4)) (random_sample (g + 5))
                      (get delta j) x in
  (X_alpha + X_beta + X_delta) / 3.

End Generator.

(** ** Observations *)

(** [self.positions[i, j]] *)
Definition cell (w : World) (i j : nat) : Q :=
  get (get_row (positions (self w)) i) j.

(** The three leaders, positions and scores. *)
Definition leaders (s : GWO)
  : list Q * score * list Q * score * list Q * score :=
  (alpha_pos s, alpha_score s, beta_pos s, beta_score s,
   delta_pos s, delta_score s).

(** The arguments of the constructor that [self] keeps. *)
Definition config (s : GWO) : (list Q -> score) * Q * Q * Z * Z * Z :=
  (obj_func s, lb s, ub s, dim s, pop_size s, max_iter s).

(** [alpha_score <= beta_score <= delta_score] *)
Definition ordered (s : GWO) : Prop :=
  score_leb (alpha_score s) (beta_score s) = true /\
  score_leb (beta_score s) (delta_score s) = true.

(** A coordinate inside the search box. *)
Definition in_bounds (lower upper x : Q) : Prop := lower <= x /\ x <= upper.

(** A sequence of scores that never goes up. *)
Definition non_increasing (c : list score) : Prop :=
  forall (i : nat) (x y : score),
    nth_error c i = Some x -> nth_error c (S i) = Some y ->
    score_leb y x = true.

(** The arrays have the sizes the constructor gave them. *)
Definition well_shaped (s : GWO) : Prop :=
  length (positions s) = Z.to_nat (pop_size s) /\
  Forall (fun row => length row = Z.to_nat (dim s)) (positions s) /\
  length (alpha_pos s) = Z.to_nat (dim s) /\
  length (beta_pos s) = Z.to_nat (dim s) /\
  length (delta_pos s) = Z.to_nat (dim s).


(** Alpha's score is a number or an infinity, it is below every recorded
    entry, and the recorded entries never go up. *)
Definition curve_invariant (s : GWO) : Prop :=
  is_nan (alpha_score s) = false /\
  (forall x, In x (convergence_curve s) ->
             score_leb (alpha_score s) x = true) /\
  non_increasing (convergence_curve s).


(** With a constant objective only the very first wolf is ever promoted. *)
Definition constant_invariant (c : score) (z : list Q) (s : GWO) : Prop :=
  beta_pos s = z /\ beta_score s = PosInf /\
  delta_pos s = z /\ delta_score s = PosInf /\
  ((alpha_pos s = z /\ alpha_score s = PosInf) \/ alpha_score s = c).

(** ** The leaders and the candidates evaluated so far *)

(** The leader scores are strictly ranked, as far as leaders have been
    found: a score may equal the next one only when the next one is still
    the constructor's [+infinity]. *)
Definition strictly_ranked (s : GWO) : Prop :=
  (score_ltb (alpha_score s) (beta_score s) = true \/
   beta_score s = PosInf) /\
  (score_ltb (beta_score s) (delta_score s) = true \/
   delta_score s = PosInf).

(** A leader is still the constructor's [(zeros, +infinity)], or it is one
    of the vectors the objective has received, with the fitness the
    objective gives it. *)
Definition attained (s : GWO) (log : list (list Q)) (pos : list Q)
           (sc : score) : Prop :=
  (pos = zeros (dim s) /\ sc = PosInf) \/
  (In pos log /\ obj_func s pos = sc).

Definition leaders_attained (s : GWO) (log : list (list Q)) : Prop :=
  attained s log (alpha_pos s) (alpha_score s) /\
  attained s log (beta_pos s) (beta_score s) /\
  attained s log (delta_pos s) (delta_score s).

(** No vector of [log] scores below Alpha; one that scores below Beta ties
    with Alpha; one that scores below Delta ties with Alpha or with Beta. *)
Definition best_three (s : GWO) (log : list (list Q)) : Prop :=
  forall x, In x log ->
    score_ltb (obj_func s x) (alpha_score s) = false /\
    (score_ltb (obj_func s x) (beta_score s) = true ->
     score_eqb (obj_func s x) (alpha_score s) = true) /\
    (score_ltb (obj_func s x) (delta_score s) = true ->
     score_eqb (obj_func s x) (alpha_score s) = true \/
     score_eqb (obj_func s x) (beta_score s) = true).


(** Two generators return the same values from draw [lo] to draw
    [hi - 1]. *)
Definition same_draws (rs rs' : nat -> Q) (lo hi : nat) : Prop :=
  forall i, (lo <= i < hi)%nat -> rs i = rs' i.

(** Alpha is still the constructor's, or its position is the first vector
    of [log] that scores as low as [alpha_score]: every vector before it
    fails [f x <= alpha_score]. *)
Definition first_best (s : GWO) (log : list (list Q)) : Prop :=
  alpha_score s = PosInf \/
  exists before after,
    log = before ++ alpha_pos s :: after /\
    obj_func s (alpha_pos s) = alpha_score s /\
    forall x, In x before ->
              score_leb (obj_func s x) (alpha_score s) = false.

(** ** Sample data *)

(** [sphere_function]: [np.sum(x**2)]. *)
Definition sphere_function (x : list Q) : score :=
  Fin (fold_left Qplus (map (fun c => c ^ 2) x) 0).

(** A generator cycling through eighths. *)
Definition sample_stream (n : nat) : Q := inject_Z (Z.of_nat (n mod 8)) / 8.

(** What [GWO(sphere_function, -10, 10, 2, 3, 2)] builds when the generator
    is at the start of [sample_stream]. *)
Definition sample_world : World :=
  mkWorld
    (mkGWO sphere_function (-10) 10 2 3 2
           (uniform_matrix sample_stream (-10) 10 3 2 0)
           (zeros 2) PosInf (zeros 2) PosInf (zeros 2) PosInf [])
    6 [].

(** The constant objective of the specification's scenario. *)
Definition five (x : list Q) : score := Fin 5.

(** What [GWO(five, -10, 10, 2, 3, 2)] builds. *)
Definition five_world : World :=
  mkWorld
    (mkGWO five (-10) 10 2 3 2
           (uniform_matrix sample_stream (-10) 10 3 2 0)
           (zeros 2) PosInf (zeros 2) PosInf (zeros 2) PosInf [])
    6 [].

(** A generator that follows [sample_stream] for its first thousand draws
    and returns 0 afterwards. *)
Definition other_stream (n : nat) : Q :=
  if (n <? 1000)%nat then sample_stream n else 0.


(** What [GWO(sphere_function, -10, 10, 2, 0, 2)] builds: no wolf. *)
Definition empty_world : World :=
  mkWorld
    (mkGWO sphere_function (-10) 10 2 0 2 []
           (zeros 2) PosInf (zeros 2) PosInf (zeros 2) PosInf [])
    0 [].

(** ** The decay coefficient on IEEE 754 doubles

    The line [a = 2 - t * (2 / self.max_iter)] evaluated in binary64, with
    round-to-nearest-even at every operation, for integers that doubles
    represent exactly. *)
Module Binary64.

Definition prec : Z := 53.
Definition emax : Z := 1024.

(** [float(z)] *)
Definition of_int (z : Z) : spec_float :=
  binary_normalize prec emax z 0 false.

Definition decay64 (t : nat) (max_iter : Z) : spec_float :=
  SFsub prec emax (of_int 2)
        (SFmul prec emax (of_int (Z.of_nat t))
               (SFdiv prec emax (of_int 2) (of_int max_iter))).

(** [0 < a] for every [t < max_iter], for every [max_iter] from 1 to
    [bound]. *)
Definition decay64_positive_up_to (bound : nat) : bool :=
  forallb (fun m =>
             forallb (fun t => SFltb (S754_zero false)
                                     (decay64 t (Z.of_nat m)))
                     (seq 0 m))
          (seq 1 bound).

End Binary64.

(** * Properties *)

Section Properties.

(** The random stream is arbitrary throughout. *)
Variable random_sample : nat -> Q.

Local Abbreviation step := (step random_sample).
Local Abbreviation reachable := (reachable random_sample).
Local Abbreviation random := (random random_sample).
Local Abbreviation update_coordinate := (update_coordinate random_sample).
Local Abbreviation update_wolf := (update_wolf random_sample).
Local Abbreviation update_positions := (update_positions random_sample).
Local Abbreviation iteration := (iteration random_sample).
Local Abbreviation iterate := (iterate random_sample).
Local Abbreviation optimize := (optimize random_sample).
Local Abbreviation uniform_matrix := (uniform_matrix random_sample).
Local Abbreviation init := (init random_sample).
Local Abbreviation spec_new_coordinate := (spec_new_coordinate random_sample).

Ltac split_chain :=
  unfold update_leaders;
  repeat match goal with
         | |- context [if ?b then _ else _] => destruct b eqn:?
         end.

(** ** The order on scores *)

Lemma Qltb_lt (a b : Q) : negb (Qle_bool b a) = true <-> a < b.
Proof.
  rewrite negb_true_iff. split; intro H.
  - apply Qnot_le_lt. intro Hle. apply Qle_bool_iff in Hle. congruence.
  - destruct (Qle_bool b a) eqn:E; [|reflexivity].
    apply Qle_bool_iff in E. exfalso. apply (Qlt_not_le _ _ H E).
Qed.

Lemma score_ltb_irrefl (x : score) : score_ltb x x = false.
Proof.
  destruct x as [| |q|]; simpl; try reflexivity.
  apply negb_false_iff, Qle_bool_iff, Qle_refl.
Qed.

Lemma score_ltb_leb (x y : score) :
  score_ltb x y = true -> score_leb x y = true.
Proof.
  destruct x as [| |a|], y as [| |b|]; simpl; try congruence.
  intro H. apply Qltb_lt in H. apply Qle_bool_iff, Qlt_le_weak, H.
Qed.

Lemma score_leb_refl (x : score) : is_nan x = false -> score_leb x x = true.
Proof.
  destruct x as [| |q|]; simpl; try congruence.
  intros _. apply Qle_bool_iff, Qle_refl.
Qed.

Lemma score_leb_trans (x y z : score) :
  score_leb x y = true -> score_leb y z = true -> score_leb x z = true.
Proof.
  destruct x as [| |a|], y as [| |b|], z as [| |c|]; simpl; try congruence.
  rewrite !Qle_bool_iff. apply Qle_trans.
Qed.

Lemma score_leb_not_nan (x y : score) :
  score_leb x y = true -> is_nan x = false /\ is_nan y = false.
Proof. destruct x, y; simpl; intro; split; congruence. Qed.

Lemma score_eqb_not_ltb (x y : score) :
  score_eqb x y = true -> score_ltb x y = false /\ score_ltb y x = false.
Proof.
  destruct x as [| |a|], y as [| |b|]; simpl; try congruence; auto.
  intro H. apply Qeq_bool_iff in H.
  split; apply negb_false_iff, Qle_bool_iff; rewrite H; apply Qle_refl.
Qed.

Lemma score_leb_not_gtb (x y : score) :
  score_leb x y = true -> score_ltb y x = false.
Proof.
  destruct x as [| |a|], y as [| |b|]; simpl; try congruence.
  intro H. apply negb_false_iff, H.
Qed.

(** ** Arrays *)

Lemma length_set_nth (A : Type) (i : nat) (x : A) (v : list A) :
  length (set_nth i x v) = length v.
Proof.
  revert i; induction v as [|hd tl IH]; intros [|i]; simpl; auto.
Qed.

Lemma nth_set_nth_eq (A : Type) (i : nat) (x d : A) (v : list A) :
  (i < length v)%nat -> nth i (set_nth i x v) d = x.
Proof.
  revert i; induction v as [|hd tl IH]; intros [|i]; simpl; intro H;
    try lia; auto.
  apply IH; lia.
Qed.

Lemma nth_set_nth_neq (A : Type) (i k : nat) (x d : A) (v : list A) :
  i <> k -> nth k (set_nth i x v) d = nth k v d.
Proof.
  revert i k; induction v as [|hd tl IH]; intros [|i] [|k]; simpl; intro H;
    try congruence; auto.
Qed.

Lemma Forall_set_nth (A : Type) (P : A -> Prop) (i : nat) (x : A)
      (v : list A) :
  Forall P v -> P x -> Forall P (set_nth i x v).
Proof.
  intros Hv Hx; revert i; induction Hv as [|hd tl Hhd Htl IH]; intros [|i];
    simpl; constructor; auto.
Qed.

Lemma Forall_nth_default (A : Type) (P : A -> Prop) (v : list A) (d : A)
      (i : nat) :
  Forall P v -> P d -> P (nth i v d).
Proof.
  intros Hv Hd; revert i; induction Hv; intros [|i]; simpl; auto.
Qed.

Lemma length_get_row (m : list (list Q)) (n i : nat) :
  Forall (fun row => length row = n) m -> (i < length m)%nat ->
  length (get_row m i) = n.
Proof.
  intros Hm Hi. unfold get_row.
  rewrite Forall_forall in Hm. apply Hm, nth_In, Hi.
Qed.

Lemma length_zeros (n : Z) : length (zeros n) = Z.to_nat n.
Proof. apply repeat_length. Qed.

Lemma range_eq (n : Z) : range n = seq 0 (Z.to_nat n).
Proof. reflexivity. Qed.

(** ** Loops *)

Lemma fold_left_invariant (A B : Type) (P : A -> Prop) (f : A -> B -> A)
      (l : list B) (a : A) :
  (forall x b, P x -> P (f x b)) -> P a -> P (fold_left f l a).
Proof.
  intro Hf; revert a; induction l as [|b l IH]; simpl; intros a Ha; auto.
Qed.

Lemma fold_left_seq_S (A : Type) (f : A -> nat -> A) (n : nat) (a : A) :
  fold_left f (seq 0 (S n)) a = f (fold_left f (seq 0 n) a) n.
Proof. rewrite seq_S, fold_left_app. reflexivity. Qed.

(** ** The clip *)



Lemma length_clip (v : list Q) (lower upper : Q) :
  length (clip v lower upper) = length v.
Proof. apply length_map. Qed.

(** ** The ranking chain, one wolf at a time *)

Lemma update_leaders_config (s : GWO) (f : score) (wolf : list Q) :
  config (update_leaders s f wolf) = config s.
Proof. split_chain; reflexivity. Qed.

Lemma update_leaders_positions (s : GWO) (f : score) (wolf : list Q) :
  positions (update_leaders s f wolf) = positions s.
Proof. split_chain; reflexivity. Qed.

Lemma update_leaders_curve (s : GWO) (f : score) (wolf : list Q) :
  convergence_curve (update_leaders s f wolf) = convergence_curve s.
Proof. split_chain; reflexivity. Qed.

Lemma update_leaders_ordered (s : GWO) (f : score) (wolf : list Q) :
  ordered s -> ordered (update_leaders s f wolf).
Proof.
  intros [Hab Hbd]. unfold ordered. split_chain; simpl.
  - split; [apply score_ltb_leb; assumption | assumption].
  - match goal with H : _ && _ = true |- _ =>
      apply andb_prop in H; destruct H as [Hgt Hlt] end.
    split; apply score_ltb_leb; assumption.
  - match goal with H : _ && _ && _ = true |- _ =>
      apply andb_prop in H; destruct H as [H Hlt];
      apply andb_prop in H; destruct H as [Hga Hgb] end.
    split; [assumption | apply score_ltb_leb; assumption].
  - split; assumption.
Qed.

(** Alpha's score never goes up. *)
Lemma update_leaders_alpha_leb (s : GWO) (f : score) (wolf : list Q) :
  is_nan (alpha_score s) = false ->
  score_leb (alpha_score (update_leaders s f wolf)) (alpha_score s) = true.
Proof.
  intro Hn. split_chain; simpl;
    try (apply score_leb_refl; assumption).
  apply score_ltb_leb; assumption.
Qed.

Lemma update_leaders_shape (s : GWO) (f : score) (wolf : list Q) :
  well_shaped s -> length wolf = Z.to_nat (dim s) ->
  well_shaped (update_leaders s f wolf).
Proof.
  intros (Hp & Hr & Ha & Hb & Hd) Hw. unfold well_shaped.
  split_chain; simpl; repeat split; assumption.
Qed.

(** ** What each statement changes *)

Lemma clip_wolf_self (w : World) (i : nat) :
  self (clip_wolf w i)
  = set_positions (self w)
      (set_nth i (clip (get_row (positions (self w)) i)
                       (lb (self w)) (ub (self w)))
               (positions (self w))).
Proof. reflexivity. Qed.

Lemma evaluate_wolf_config (w : World) (i : nat) :
  config (self (evaluate_wolf w i)) = config (self w).
Proof. unfold evaluate_wolf; simpl. rewrite update_leaders_config. reflexivity. Qed.

Lemma evaluate_wolf_positions (w : World) (i : nat) :
  positions (self (evaluate_wolf w i))
  = set_nth i (clip (get_row (positions (self w)) i)
                    (lb (self w)) (ub (self w)))
            (positions (self w)).
Proof. unfold evaluate_wolf; simpl. rewrite update_leaders_positions. reflexivity. Qed.

Lemma evaluate_wolf_curve (w : World) (i : nat) :
  convergence_curve (self (evaluate_wolf w i)) = convergence_curve (self w).
Proof. unfold evaluate_wolf; simpl. rewrite update_leaders_curve. reflexivity. Qed.

Lemma evaluate_wolf_rng (w : World) (i : nat) :
  rng (evaluate_wolf w i) = rng w.
Proof. reflexivity. Qed.

Lemma evaluate_wolf_evaluated (w : World) (i : nat) :
  evaluated (evaluate_wolf w i)
  = evaluated w ++ [get_row (positions (self (clip_wolf w i))) i].
Proof. reflexivity. Qed.

(** The clipped row is what the objective receives, when [i] is a row. *)
Lemma clipped_row (w : World) (i : nat) :
  (i < length (positions (self w)))%nat ->
  get_row (positions (self (clip_wolf w i))) i
  = clip (get_row (positions (self w)) i) (lb (self w)) (ub (self w)).
Proof. intro Hi. simpl. unfold get_row. apply nth_set_nth_eq, Hi. Qed.


Lemma update_coordinate_eq (a : Q) (i : nat) (w : World) (j : nat) :
  update_coordinate a i w j
  = mkWorld
      (set_positions (self w)
         (set_cell (positions (self w)) i j
            (spec_new_coordinate a
               (alpha_pos (self w)) (beta_pos (self w)) (delta_pos (self w))
               (rng w) (cell w i j) j)))
      (rng w + 6)
      (evaluated w).
Proof.
  unfold update_coordinate, random, set_self, spec_new_coordinate, cell; simpl.
  replace (rng w + 6)%nat with (S (S (S (S (S (S (rng w))))))) by lia.
  replace (rng w + 1)%nat with (S (rng w)) by lia.
  replace (rng w + 2)%nat with (S (S (rng w))) by lia.
  replace (rng w + 3)%nat with (S (S (S (rng w)))) by lia.
  replace (rng w + 4)%nat with (S (S (S (S (rng w))))) by lia.
  replace (rng w + 5)%nat with (S (S (S (S (S (rng w)))))) by lia.
  reflexivity.
Qed.

Lemma set_nth_overflow (A : Type) (i : nat) (x : A) (v : list A) :
  (length v <= i)%nat -> set_nth i x v = v.
Proof.
  revert i; induction v as [|hd tl IH]; intros [|i]; simpl; intro H;
    try lia; auto.
  f_equal. apply IH. lia.
Qed.

Lemma in_range (n : Z) (i : nat) : In i (range n) <-> (i < Z.to_nat n)%nat.
Proof. unfold range. rewrite in_seq. lia. Qed.

Lemma fold_left_invariant_in (A B : Type) (P : A -> Prop) (f : A -> B -> A)
      (l : list B) (a : A) :
  (forall x b, In b l -> P x -> P (f x b)) -> P a -> P (fold_left f l a).
Proof.
  revert a; induction l as [|b l IH]; simpl; intros a Hf Ha; auto 6.
Qed.

Lemma config_fields (s s' : GWO) :
  config s = config s' ->
  obj_func s = obj_func s' /\ lb s = lb s' /\ ub s = ub s' /\
  dim s = dim s' /\ pop_size s = pop_size s' /\ max_iter s = max_iter s'.
Proof. unfold config. intro H. inversion H. repeat split; reflexivity. Qed.

Lemma step_config (w w' : World) :
  step w w' -> config (self w') = config (self w).
Proof.
  intros [w1 i Hi | a i w1 j Hi Hj | w1].
  - apply evaluate_wolf_config.
  - rewrite update_coordinate_eq. reflexivity.
  - reflexivity.
Qed.

Lemma reachable_config (w0 w : World) :
  reachable w0 w -> config (self w) = config (self w0).
Proof.
  induction 1 as [|w w' _ IH Hs]; [reflexivity|].
  rewrite (step_config Hs). exact IH.
Qed.

Lemma reachable_trans (w0 w1 w2 : World) :
  reachable w0 w1 -> reachable w1 w2 -> reachable w0 w2.
Proof.
  intros H01 H12. induction H12 as [|w w' _ IH Hs]; [exact H01|].
  eapply reach_step; eassumption.
Qed.

(** *** Shapes *)

Lemma step_shape (w w' : World) :
  step w w' -> well_shaped (self w) -> well_shaped (self w').
Proof.
  intros [w1 i Hi | a i w1 j Hi Hj | w1] Hw.
  - assert (Hlen : (i < length (positions (self w1)))%nat).
    { destruct Hw as [Hp _]. rewrite Hp. apply in_range, Hi. }
    unfold evaluate_wolf. cbv zeta. cbn [self].
    apply update_leaders_shape.
    + destruct Hw as (Hp & Hr & Ha & Hb & Hd).
      rewrite clip_wolf_self. unfold well_shaped; cbn.
      rewrite length_set_nth. repeat split; try assumption.
      apply Forall_set_nth; [assumption|].
      rewrite length_clip. apply length_get_row; assumption.
    + rewrite clipped_row by exact Hlen.
      rewrite length_clip. cbn.
      destruct Hw as (Hp & Hr & _). apply length_get_row; assumption.
  - rewrite update_coordinate_eq.
    destruct Hw as (Hp & Hr & Ha & Hb & Hd).
    unfold well_shaped; cbn. unfold set_cell.
    rewrite length_set_nth. repeat split; try assumption.
    apply Forall_set_nth; [assumption|].
    rewrite length_set_nth. apply length_get_row; [assumption|].
    rewrite Hp. apply in_range, Hi.
  - exact Hw.
Qed.

Lemma reachable_shape (w0 w : World) :
  well_shaped (self w0) -> reachable w0 w -> well_shaped (self w).
Proof.
  intros H0. induction 1 as [|w w' _ IH Hs]; [exact H0|].
  apply (step_shape Hs IH).
Qed.

(** *** The leaders stay ranked *)

Lemma step_ordered (w w' : World) :
  step w w' -> ordered (self w) -> ordered (self w').
Proof.
  intros [w1 i Hi | a i w1 j Hi Hj | w1] Hw.
  - unfold evaluate_wolf. cbv zeta. cbn [self].
    apply update_leaders_ordered. exact Hw.
  - rewrite update_coordinate_eq. exact Hw.
  - exact Hw.
Qed.

Lemma reachable_ordered (w0 w : World) :
  ordered (self w0) -> reachable w0 w -> ordered (self w).
Proof.
  intros H0. induction 1 as [|w w' _ IH Hs]; [exact H0|].
  apply (step_ordered Hs IH).
Qed.

(** ** The loops, as sequences of steps *)

Lemma reachable_same_sizes (w0 w w' : World) :
  reachable w0 w -> reachable w0 w' ->
  pop_size (self w') = pop_size (self w) /\ dim (self w') = dim (self w).
Proof.
  intros H H'. apply reachable_config in H, H'.
  rewrite <- H in H'. apply config_fields in H'. tauto.
Qed.

Lemma reachable_evaluate_all (w0 w : World) :
  reachable w0 w -> reachable w0 (evaluate_all w).
Proof.
  intro Hw. unfold evaluate_all.
  apply fold_left_invariant_in; [|exact Hw].
  intros x i Hi Hx. eapply reach_step; [exact Hx|].
  constructor. destruct (reachable_same_sizes Hw Hx) as [-> _]. exact Hi.
Qed.

Lemma reachable_update_wolf (a : Q) (w0 w : World) (i : nat) :
  reachable w0 w -> In i (range (pop_size (self w))) ->
  reachable w0 (update_wolf a w i).
Proof.
  intros Hw Hi. unfold update_wolf.
  apply fold_left_invariant_in; [|exact Hw].
  intros x j Hj Hx. eapply reach_step; [exact Hx|].
  destruct (reachable_same_sizes Hw Hx) as [Hp Hd].
  constructor; [rewrite Hp | rewrite Hd]; assumption.
Qed.

Lemma reachable_update_positions (a : Q) (w0 w : World) :
  reachable w0 w -> reachable w0 (update_positions a w).
Proof.
  intro Hw. unfold update_positions.
  apply fold_left_invariant_in; [|exact Hw].
  intros x i Hi Hx. apply reachable_update_wolf; [exact Hx|].
  destruct (reachable_same_sizes Hw Hx) as [-> _]. exact Hi.
Qed.

Lemma reachable_iteration (w0 w : World) (t : nat) :
  reachable w0 w -> reachable w0 (iteration w t).
Proof.
  intro Hw. unfold iteration.
  eapply reach_step; [|apply step_record].
  apply reachable_update_positions, reachable_evaluate_all, Hw.
Qed.

Lemma reachable_iterate (w0 : World) (k : nat) : reachable w0 (iterate k w0).
Proof.
  unfold iterate.
  apply fold_left_invariant; [|constructor].
  intros x t Hx. apply reachable_iteration, Hx.
Qed.

Lemma iterate_S (k : nat) (w : World) :
  iterate (S k) w = iteration (iterate k w) k.
Proof. apply fold_left_seq_S. Qed.

Lemma iterate_config (k : nat) (w : World) :
  config (self (iterate k w)) = config (self w).
Proof. eapply reachable_config, reachable_iterate. Qed.

Lemma optimize_iterate (w : World) :
  optimize w = iterate (Z.to_nat (max_iter (self w))) w.
Proof. reflexivity. Qed.

(** *** The constructor's result *)

Lemma init_inr (f : list Q -> score) (lower upper : Q) (d n m : Z)
      (g : nat) (w0 : World) :
  init f lower upper d n m g = inr w0 ->
  (0 <= n)%Z /\ (0 <= d)%Z /\
  config (self w0) = (f, lower, upper, d, n, m) /\
  positions (self w0)
  = uniform_matrix lower upper (Z.to_nat n) (Z.to_nat d) g /\
  leaders (self w0)
  = (zeros d, PosInf, zeros d, PosInf, zeros d, PosInf) /\
  convergence_curve (self w0) = [] /\
  rng w0 = (g + Z.to_nat n * Z.to_nat d)%nat /\
  evaluated w0 = [].
Proof.
  unfold init. destruct ((n <? 0)%Z || (d <? 0)%Z) eqn:E; [discriminate|].
  apply orb_false_elim in E. destruct E as [En Ed].
  apply Z.ltb_ge in En, Ed.
  intro H. injection H as <-. cbn. repeat split; assumption.
Qed.

Lemma init_shape (f : list Q -> score) (lower upper : Q) (d n m : Z)
      (g : nat) (w0 : World) :
  init f lower upper d n m g = inr w0 -> well_shaped (self w0).
Proof.
  intro H. apply init_inr in H.
  destruct H as (_ & _ & Hc & Hp & Hl & _).
  unfold config in Hc. unfold leaders in Hl.
  injection Hc as _ _ _ Hd Hn _. injection Hl as Ha _ Hb _ Hdl _.
  unfold well_shaped. rewrite Hp, Ha, Hb, Hdl, Hd, Hn, !length_zeros.
  unfold uniform_matrix. rewrite length_map, length_seq.
  repeat split.
  apply Forall_forall. intros row Hrow. apply in_map_iff in Hrow.
  destruct Hrow as [i [<- _]]. rewrite length_map, length_seq. reflexivity.
Qed.

Lemma init_ordered (f : list Q -> score) (lower upper : Q) (d n m : Z)
      (g : nat) (w0 : World) :
  init f lower upper d n m g = inr w0 -> ordered (self w0).
Proof.
  intro H. apply init_inr in H.
  destruct H as (_ & _ & _ & _ & Hl & _).
  unfold leaders in Hl. injection Hl as _ Ha _ Hb _ Hd.
  unfold ordered. rewrite Ha, Hb, Hd. split; reflexivity.
Qed.

(** ** Claim C2 *)

(** C2. Whatever the objective, the bounds, the sizes and the random
    stream, and whatever the number [k] of iterations already completed,
    once the evaluation loop of the next iteration has gone through the
    whole pack the leaders satisfy
    [alpha_score <= beta_score <= delta_score]. *)
Theorem leaders_ordered_after_ranking
        (f : list Q -> score) (lower upper : Q) (d n m : Z) (g : nat)
        (w0 : World) (k : nat) :
  init f lower upper d n m g = inr w0 ->
  ordered (self (evaluate_all (iterate k w0))).
Proof.
  intro H. apply reachable_ordered with w0.
  - eapply init_ordered, H.
  - apply reachable_evaluate_all, reachable_iterate.
Qed.

(** ** The convergence curve *)

Lemma non_increasing_snoc (c : list score) (a : score) :
  non_increasing c ->
  (forall x, In x c -> score_leb a x = true) ->
  non_increasing (c ++ [a]).
Proof.
  intros Hc Ha i x y Hx Hy.
  assert (Hlt : (S i < length (c ++ [a]))%nat).
  { apply nth_error_Some. congruence. }
  rewrite length_app in Hlt. simpl in Hlt.
  rewrite nth_error_app1 in Hx by lia.
  destruct (Nat.eq_dec (S i) (length c)) as [E|E].
  - rewrite nth_error_app2 in Hy by lia.
    rewrite E, Nat.sub_diag in Hy. simpl in Hy. injection Hy as <-.
    apply Ha. eapply nth_error_In, Hx.
  - rewrite nth_error_app1 in Hy by lia.
    eapply Hc; eassumption.
Qed.

Lemma step_curve_invariant (w w' : World) :
  step w w' -> curve_invariant (self w) -> curve_invariant (self w').
Proof.
  intros [w1 i Hi | a i w1 j Hi Hj | w1] (Hn & Hle & Hc).
  - unfold curve_invariant. rewrite evaluate_wolf_curve.
    unfold evaluate_wolf. cbv zeta. cbn [self].
    match goal with |- context [update_leaders ?s ?f ?p] =>
      pose proof (@update_leaders_alpha_leb s f p Hn) as Hdown end.
    repeat split.
    + apply score_leb_not_nan in Hdown. tauto.
    + intros x Hx. eapply score_leb_trans; [exact Hdown|]. apply Hle, Hx.
    + exact Hc.
  - rewrite update_coordinate_eq. repeat split; assumption.
  - unfold curve_invariant. cbn. repeat split.
    + exact Hn.
    + intros x Hx. apply in_app_or in Hx. destruct Hx as [Hx|[<-|[]]].
      * apply Hle, Hx.
      * apply score_leb_refl, Hn.
    + apply non_increasing_snoc; assumption.
Qed.

Lemma reachable_curve_invariant (w0 w : World) :
  curve_invariant (self w0) -> reachable w0 w -> curve_invariant (self w).
Proof.
  intros H0. induction 1 as [|w w' _ IH Hs]; [exact H0|].
  apply (step_curve_invariant Hs IH).
Qed.

Lemma init_curve_invariant (f : list Q -> score) (lower upper : Q)
      (d n m : Z) (g : nat) (w0 : World) :
  init f lower upper d n m g = inr w0 ->
  curve_invariant (self w0).
Proof.
  intro H. apply init_inr in H.
  destruct H as (_ & _ & _ & _ & Hl & Hc & _).
  unfold leaders in Hl. injection Hl as _ Ha _ _ _ _.
  unfold curve_invariant. rewrite Ha, Hc. repeat split.
  - intros x [].
  - intros [|i] x y Hx; discriminate.
Qed.

(** The curve only ever grows at its end. *)
Lemma step_curve_prefix (w w' : World) :
  step w w' ->
  exists l, convergence_curve (self w') = convergence_curve (self w) ++ l.
Proof.
  intros [w1 i Hi | a i w1 j Hi Hj | w1].
  - exists []. rewrite evaluate_wolf_curve, app_nil_r. reflexivity.
  - exists []. rewrite update_coordinate_eq, app_nil_r. reflexivity.
  - exists [alpha_score (self w1)]. reflexivity.
Qed.

Lemma reachable_curve_prefix (w w' : World) :
  reachable w w' ->
  exists l, convergence_curve (self w') = convergence_curve (self w) ++ l.
Proof.
  induction 1 as [|w1 w2 _ [l IH] Hs].
  - exists []. rewrite app_nil_r. reflexivity.
  - destruct (step_curve_prefix Hs) as [l' Hl'].
    exists (l ++ l'). rewrite Hl', IH, app_assoc. reflexivity.
Qed.

(** The two inner loops leave the curve alone. *)
Lemma evaluate_all_curve (w : World) :
  convergence_curve (self (evaluate_all w)) = convergence_curve (self w).
Proof.
  unfold evaluate_all.
  apply fold_left_invariant
    with (P := fun x => convergence_curve (self x)
                        = convergence_curve (self w)); [|reflexivity].
  intros x i Hx. rewrite evaluate_wolf_curve. exact Hx.
Qed.

Lemma update_positions_curve (a : Q) (w : World) :
  convergence_curve (self (update_positions a w))
  = convergence_curve (self w).
Proof.
  unfold update_positions.
  apply fold_left_invariant
    with (P := fun x => convergence_curve (self x)
                        = convergence_curve (self w)); [|reflexivity].
  intros x i Hx. unfold update_wolf.
  apply fold_left_invariant
    with (P := fun y => convergence_curve (self y)
                        = convergence_curve (self w)); [|exact Hx].
  intros y j Hy. rewrite update_coordinate_eq. exact Hy.
Qed.

Lemma iteration_curve (w : World) (t : nat) :
  convergence_curve (self (iteration w t))
  = convergence_curve (self w) ++ [alpha_score (self (iteration w t))].
Proof.
  unfold iteration, record_best. cbn.
  rewrite update_positions_curve, evaluate_all_curve. reflexivity.
Qed.

Lemma iterate_curve_length (k : nat) (w : World) :
  length (convergence_curve (self (iterate k w)))
  = (length (convergence_curve (self w)) + k)%nat.
Proof.
  induction k as [|k IH]; [cbn; lia|].
  rewrite iterate_S, iteration_curve, length_app, IH. simpl. lia.
Qed.

(** Alpha's score changes only by being replaced with a strictly smaller
    fitness. *)
Lemma update_leaders_alpha_cases (s : GWO) (f : score) (wolf : list Q) :
  alpha_score (update_leaders s f wolf) = alpha_score s \/
  score_ltb (alpha_score (update_leaders s f wolf)) (alpha_score s) = true.
Proof. split_chain; simpl; auto. Qed.

Lemma step_alpha_cases (w w' : World) :
  step w w' ->
  alpha_score (self w') = alpha_score (self w) \/
  score_ltb (alpha_score (self w')) (alpha_score (self w)) = true.
Proof.
  intros [w1 i Hi | a i w1 j Hi Hj | w1].
  - unfold evaluate_wolf. cbv zeta. cbn [self].
    match goal with |- context [update_leaders ?s ?f ?p] =>
      exact (update_leaders_alpha_cases s f p) end.
  - rewrite update_coordinate_eq. left. reflexivity.
  - left. reflexivity.
Qed.

(** ** Claim C3 *)

(** C3. For every configuration the constructor accepts and every random
    stream, the curve [optimize] returns never goes up:
    [convergence_curve[i+1] <= convergence_curve[i]] at every index [i];
    and every statement of a run either leaves [alpha_score] as it is or
    replaces it with a strictly smaller value. *)
Theorem convergence_curve_non_increasing
        (f : list Q -> score) (lower upper : Q) (d n m : Z) (g : nat)
        (w0 : World) :
  init f lower upper d n m g = inr w0 ->
  non_increasing (convergence_curve (self (optimize w0))) /\
  (forall w w', reachable w0 w -> step w w' ->
     alpha_score (self w') = alpha_score (self w) \/
     score_ltb (alpha_score (self w')) (alpha_score (self w)) = true).
Proof.
  intro H. split; [|intros w w' _ Hs; apply step_alpha_cases, Hs].
  assert (Hinv : curve_invariant (self (optimize w0))).
  { apply reachable_curve_invariant with w0.
    - eapply init_curve_invariant, H.
    - rewrite optimize_iterate. apply reachable_iterate. }
  apply Hinv.
Qed.

(** ** Claim C6 *)

(** C6. After [optimize] the curve has exactly [max_iter] entries (none
    when [max_iter <= 0]); after [k] iterations it has [k] entries, the
    last one being Alpha's score at that time; and between any two states
    of a run the earlier curve is a prefix of the later one, so that no
    recorded entry is ever changed. *)
Theorem convergence_curve_length_and_append_only
        (f : list Q -> score) (lower upper : Q) (d n m : Z) (g : nat)
        (w0 : World) :
  init f lower upper d n m g = inr w0 ->
  Z.of_nat (length (convergence_curve (self (optimize w0)))) = Z.max 0 m /\
  (forall k, length (convergence_curve (self (iterate k w0))) = k) /\
  (forall k, convergence_curve (self (iterate (S k) w0))
             = convergence_curve (self (iterate k w0))
               ++ [alpha_score (self (iterate (S k) w0))]) /\
  (forall w w', reachable w0 w -> reachable w w' ->
     exists l, convergence_curve (self w')
               = convergence_curve (self w) ++ l).
Proof.
  intro H. pose proof (init_inr _ _ _ _ _ _ _ H) as Hi.
  destruct Hi as (_ & _ & Hc & _ & _ & Hcurve & _).
  assert (Hlen : forall k,
             length (convergence_curve (self (iterate k w0))) = k).
  { intro k. rewrite iterate_curve_length, Hcurve. reflexivity. }
  repeat split.
  - rewrite optimize_iterate, Hlen.
    unfold config in Hc. injection Hc as _ _ _ _ _ ->. lia.
  - exact Hlen.
  - intro k. rewrite iterate_S at 1. rewrite iteration_curve.
    rewrite <- iterate_S. reflexivity.
  - intros w w' _ Hww'. apply reachable_curve_prefix, Hww'.
Qed.

(** ** The search box *)




(** ** Ties *)

Lemma score_eqb_leb_not_ltb (f a b : score) :
  score_eqb f b = true -> score_leb a b = true -> score_ltb f a = false.
Proof.
  destruct f as [| |x|], a as [| |y|], b as [| |z|]; simpl;
    try congruence; auto.
  intros He Hle. apply Qeq_bool_iff in He. apply Qle_bool_iff in Hle.
  apply negb_false_iff, Qle_bool_iff. rewrite He. exact Hle.
Qed.

(** A wolf that ties with Alpha or with Beta changes nothing. *)
Lemma update_leaders_tie (s : GWO) (f : score) (wolf : list Q) :
  score_leb (alpha_score s) (beta_score s) = true ->
  score_eqb f (alpha_score s) = true \/ score_eqb f (beta_score s) = true ->
  update_leaders s f wolf = s.
Proof.
  intros Hab [He|He]; unfold update_leaders, score_gtb.
  - destruct (score_eqb_not_ltb _ _ He) as [-> ->]. reflexivity.
  - destruct (score_eqb_not_ltb _ _ He) as [-> ->].
    rewrite (score_eqb_leb_not_ltb _ _ _ He Hab).
    rewrite !andb_false_r. reflexivity.
Qed.

Lemma get_zeros (n : Z) (j : nat) : get (zeros n) j = 0.
Proof.
  unfold get, zeros. generalize (Z.to_nat n) as k. intro k. revert j.
  induction k as [|k IH]; intros [|j]; simpl; auto.
Qed.

Lemma update_leaders_constant (c : score) (z : list Q) (s : GWO)
      (wolf : list Q) :
  constant_invariant c z s ->
  constant_invariant c z (update_leaders s c wolf) /\
  (score_ltb c PosInf = true -> alpha_score (update_leaders s c wolf) = c).
Proof.
  intros (Hbp & Hbs & Hdp & Hds & [[Hap Has]|Has]);
    unfold update_leaders, score_gtb, constant_invariant.
  - rewrite Has, Hbs, Hds.
    destruct c as [| |q|]; simpl;
      (split; [repeat split; auto | intro; (reflexivity || discriminate)]).
  - rewrite Has, score_ltb_irrefl. simpl.
    split; [|intros _; exact Has].
    repeat split; auto.
Qed.

(** The position update touches neither the leaders nor the log. *)
Lemma update_positions_frame (T : Type) (obs : World -> T) (a : Q)
      (w : World) :
  (forall a i x j, obs (update_coordinate a i x j) = obs x) ->
  obs (update_positions a w) = obs w.
Proof.
  intro Hobs. unfold update_positions.
  apply fold_left_invariant with (P := fun x => obs x = obs w);
    [|reflexivity].
  intros x i Hx. unfold update_wolf.
  apply fold_left_invariant with (P := fun y => obs y = obs w); [|exact Hx].
  intros y j Hy. rewrite Hobs. exact Hy.
Qed.

Lemma update_positions_leaders (a : Q) (w : World) :
  leaders (self (update_positions a w)) = leaders (self w).
Proof.
  apply update_positions_frame with (obs := fun x => leaders (self x)).
  intros. rewrite update_coordinate_eq. reflexivity.
Qed.

Lemma update_positions_evaluated (a : Q) (w : World) :
  evaluated (update_positions a w) = evaluated w.
Proof.
  apply update_positions_frame with (obs := evaluated).
  intros. rewrite update_coordinate_eq. reflexivity.
Qed.

Lemma iteration_leaders (w : World) (t : nat) :
  leaders (self (iteration w t)) = leaders (self (evaluate_all w)).
Proof.
  unfold iteration, record_best.
  change (leaders (self (set_self ?x (set_convergence_curve (self ?x) ?c))))
    with (leaders (self x)).
  apply update_positions_leaders.
Qed.

(** Each iteration passes every wolf to the objective, once. *)
Lemma fold_left_count (A B : Type) (mu : A -> nat) (f : A -> B -> A)
      (l : list B) (a : A) :
  (forall x b, mu (f x b) = S (mu x)) ->
  mu (fold_left f l a) = (mu a + length l)%nat.
Proof.
  intro Hf; revert a; induction l as [|b l IH]; simpl; intro a; [lia|].
  rewrite IH, Hf. lia.
Qed.

Lemma evaluate_all_count (w : World) :
  length (evaluated (evaluate_all w))
  = (length (evaluated w) + Z.to_nat (pop_size (self w)))%nat.
Proof.
  unfold evaluate_all, range.
  rewrite fold_left_count with (mu := fun x => length (evaluated x)).
  - rewrite length_seq. reflexivity.
  - intros x i. rewrite evaluate_wolf_evaluated, length_app. simpl. lia.
Qed.

Lemma iteration_count (w : World) (t : nat) :
  length (evaluated (iteration w t))
  = (length (evaluated w) + Z.to_nat (pop_size (self w)))%nat.
Proof.
  unfold iteration, record_best, set_self. cbn [evaluated].
  rewrite update_positions_evaluated. apply evaluate_all_count.
Qed.

Lemma iterate_count (w : World) (k : nat) :
  length (evaluated (iterate k w))
  = (length (evaluated w) + k * Z.to_nat (pop_size (self w)))%nat.
Proof.
  induction k as [|k IH]; [cbn; lia|].
  rewrite iterate_S, iteration_count, IH.
  pose proof (iterate_config k w) as Hc. apply config_fields in Hc.
  destruct Hc as (_ & _ & _ & _ & -> & _). lia.
Qed.

(** ** Claim C7 *)



(** ** Claim C8 *)

(** C8. In every state of a run, when the wolf under evaluation scores
    exactly Alpha's score or exactly Beta's score, its turn of the
    evaluation loop leaves the three leader positions and the three leader
    scores as they were. *)
Theorem tie_with_alpha_or_beta_changes_no_leader
        (f : list Q -> score) (lower upper : Q) (d n m : Z) (g : nat)
        (w0 w : World) (i : nat) :
  init f lower upper d n m g = inr w0 ->
  reachable w0 w ->
  let wolf := get_row (positions (self (clip_wolf w i))) i in
  let fitness := obj_func (self w) wolf in
  score_eqb fitness (alpha_score (self w)) = true \/
  score_eqb fitness (beta_score (self w)) = true ->
  leaders (self (evaluate_wolf w i)) = leaders (self w).
Proof.
  intros H Hw wolf fitness Htie.
  pose proof (reachable_ordered (init_ordered _ _ _ _ _ _ _ H) Hw)
    as [Hab _].
  unfold evaluate_wolf. cbv zeta. cbn [self].
  rewrite update_leaders_tie; [reflexivity | exact Hab | exact Htie].
Qed.

(** ** A constant objective *)

Section Constant.

Variable c : score.
Variable z : list Q.

Lemma evaluate_wolf_constant (w : World) (i : nat) :
  (forall x, obj_func (self w) x = c) ->
  constant_invariant c z (self w) ->
  constant_invariant c z (self (evaluate_wolf w i)) /\
  (score_ltb c PosInf = true -> alpha_score (self (evaluate_wolf w i)) = c).
Proof.
  intros Hf Hw. unfold evaluate_wolf. cbv zeta. cbn [self].
  change (obj_func (self (clip_wolf w i))) with (obj_func (self w)).
  rewrite Hf. apply update_leaders_constant. exact Hw.
Qed.

Lemma step_constant (w w' : World) :
  (forall x, obj_func (self w) x = c) ->
  step w w' ->
  constant_invariant c z (self w) -> constant_invariant c z (self w').
Proof.
  intros Hf Hs. revert Hf.
  destruct Hs as [w1 i Hi | a i w1 j Hi Hj | w1]; intros Hf Hw.
  - apply evaluate_wolf_constant; assumption.
  - rewrite update_coordinate_eq. exact Hw.
  - exact Hw.
Qed.

Lemma reachable_constant (w0 w : World) :
  (forall x, obj_func (self w0) x = c) ->
  constant_invariant c z (self w0) ->
  reachable w0 w -> constant_invariant c z (self w).
Proof.
  intros Hf H0. induction 1 as [|w w' Hr IH Hs]; [exact H0|].
  apply (step_constant (w := w)); try assumption.
  apply reachable_config in Hr. apply config_fields in Hr.
  destruct Hr as (-> & _). exact Hf.
Qed.

(** A non-empty pack crowns the constant during any evaluation loop. *)
Lemma evaluate_all_constant_alpha (w0 w : World) :
  (forall x, obj_func (self w0) x = c) ->
  constant_invariant c z (self w0) ->
  score_ltb c PosInf = true ->
  (1 <= pop_size (self w0))%Z ->
  reachable w0 w ->
  alpha_score (self (evaluate_all w)) = c.
Proof.
  intros Hf H0 Hc Hn Hw. unfold evaluate_all, range.
  pose proof (reachable_config Hw) as Hcfg. apply config_fields in Hcfg.
  destruct Hcfg as (Hobj & _ & _ & _ & Hpop & _).
  destruct (Z.to_nat (pop_size (self w))) as [|p] eqn:Ep; [lia|].
  rewrite fold_left_seq_S.
  set (x := fold_left evaluate_wolf (seq 0 p) w).
  assert (Hx : reachable w0 x).
  { apply reachable_trans with w; [exact Hw|].
    subst x. apply fold_left_invariant_in; [|constructor].
    intros y i Hi Hy. eapply reach_step; [exact Hy|]. constructor.
    apply reachable_config in Hy. apply config_fields in Hy.
    destruct Hy as (_ & _ & _ & _ & -> & _).
    apply in_range. apply in_seq in Hi. lia. }
  apply evaluate_wolf_constant; [|apply (reachable_constant Hf H0 Hx)|exact Hc].
  apply reachable_config in Hx. apply config_fields in Hx.
  destruct Hx as (-> & _). exact Hf.
Qed.

End Constant.

Lemma init_constant (f : list Q -> score) (c : score) (lower upper : Q)
      (d n m : Z) (g : nat) (w0 : World) :
  (forall x, f x = c) ->
  init f lower upper d n m g = inr w0 ->
  (forall x, obj_func (self w0) x = c) /\
  constant_invariant c (zeros d) (self w0) /\
  pop_size (self w0) = n.
Proof.
  intros Hf H. apply init_inr in H.
  destruct H as (_ & _ & Hc & _ & Hl & _).
  unfold config in Hc. injection Hc as -> _ _ _ -> _.
  unfold leaders in Hl. injection Hl as Hap Has Hbp Hbs Hdp Hds.
  unfold constant_invariant. repeat split; auto.
Qed.

(** ** Claim C9 *)

(** C9. With the objective that is 5 everywhere and at least one wolf,
    Alpha's score is exactly 5 when the evaluation loop of iteration 0
    ends, it is exactly 5 after every completed iteration, and every entry
    of the curve [optimize] returns is exactly 5. *)
Theorem constant_five_objective_curve
        (f : list Q -> score) (lower upper : Q) (d n m : Z) (g : nat)
        (w0 : World) :
  (forall x, f x = Fin 5) ->
  init f lower upper d n m g = inr w0 ->
  (1 <= n)%Z ->
  alpha_score (self (evaluate_all w0)) = Fin 5 /\
  (forall k, alpha_score (self (iterate (S k) w0)) = Fin 5) /\
  Forall (fun x => x = Fin 5) (convergence_curve (self (optimize w0))).
Proof.
  intros Hf H Hn.
  edestruct init_constant as (Hobj & Hinv & Hpop); [exact Hf | exact H |].
  assert (Hall : forall w, reachable w0 w ->
                           alpha_score (self (evaluate_all w)) = Fin 5).
  { intros w Hw.
    eapply evaluate_all_constant_alpha with (z := zeros d) (w0 := w0);
      [exact Hobj | exact Hinv | reflexivity | lia | exact Hw]. }
  assert (Hit : forall k, alpha_score (self (iterate (S k) w0)) = Fin 5).
  { intro k. rewrite iterate_S.
    pose proof (iteration_leaders (iterate k w0) k) as Hl.
    unfold leaders in Hl.
    transitivity (alpha_score (self (evaluate_all (iterate k w0))));
      [congruence|].
    apply Hall, reachable_iterate. }
  repeat split.
  - apply Hall. constructor.
  - exact Hit.
  - rewrite optimize_iterate.
    generalize (Z.to_nat (max_iter (self w0))) as k.
    induction k as [|k IH].
    + apply init_inr in H. destruct H as (_ & _ & _ & _ & _ & Hc & _).
      cbn. rewrite Hc. constructor.
    + rewrite iterate_S, iteration_curve, <- iterate_S, Hit.
      apply Forall_app. split; [exact IH|]. constructor; [reflexivity|].
      constructor.
Qed.

(** ** Claim C10 *)

(** C10. With an objective that returns the same value everywhere, in
    every state of a run Beta's and Delta's scores are still [+infinity]
    and their positions are still the zero vector of the constructor, so
    that every coordinate the update rule reads from them is 0. *)
Theorem constant_objective_never_promotes_beta_delta
        (f : list Q -> score) (c : score) (lower upper : Q) (d n m : Z)
        (g : nat) (w0 w : World) :
  (forall x, f x = c) ->
  init f lower upper d n m g = inr w0 ->
  reachable w0 w ->
  beta_score (self w) = PosInf /\ delta_score (self w) = PosInf /\
  beta_pos (self w) = zeros d /\ delta_pos (self w) = zeros d /\
  (forall j, get (beta_pos (self w)) j = 0 /\
             get (delta_pos (self w)) j = 0).
Proof.
  intros Hf H Hw.
  edestruct init_constant as (Hobj & Hinv & _); [exact Hf | exact H |].
  destruct (reachable_constant Hobj Hinv Hw) as (Hbp & Hbs & Hdp & Hds & _).
  repeat split; try assumption.
  - rewrite Hbp. apply get_zeros.
  - rewrite Hdp. apply get_zeros.
Qed.

(** ** The position update, cell by cell *)


Section Update.

Variable a : Q.



End Update.

(** ** Claim C4 *)


(** ** The decay coefficient *)




(** ** Claim C5 *)


(** ** The constructor's checks *)

(** ** Claim C1 *)


Lemma constructor_fails_iff (f : list Q -> score) (lower upper : Q)
      (d n m : Z) (g : nat) :
  init f lower upper d n m g = inl ValueError
  <-> (n < 0)%Z \/ (d < 0)%Z.
Proof.
  unfold init. destruct ((n <? 0)%Z || (d <? 0)%Z) eqn:E.
  - apply orb_prop in E. rewrite !Z.ltb_lt in E. tauto.
  - apply orb_false_elim in E. rewrite !Z.ltb_ge in E.
    split; [discriminate | lia].
Qed.

(** * Further properties of the run *)

(** ** More on the order of scores *)

Lemma score_ltb_trans (x y z : score) :
  score_ltb x y = true -> score_ltb y z = true -> score_ltb x z = true.
Proof.
  destruct x as [| |a|], y as [| |b|], z as [| |c|]; simpl; try congruence.
  rewrite !Qltb_lt. apply Qlt_trans.
Qed.

Lemma score_ltb_asym (x y : score) :
  score_ltb x y = true -> score_ltb y x = false.
Proof.
  destruct x as [| |a|], y as [| |b|]; simpl; try congruence.
  rewrite Qltb_lt. intro H. apply negb_false_iff, Qle_bool_iff.
  apply Qlt_le_weak, H.
Qed.

Lemma score_trichotomy (x y : score) :
  is_nan x = false -> is_nan y = false ->
  score_ltb x y = true \/ score_eqb x y = true \/ score_ltb y x = true.
Proof.
  destruct x as [| |a|], y as [| |b|]; simpl; try congruence; auto.
  intros _ _. rewrite !Qltb_lt.
  destruct (Q_dec a b) as [[H|H]|H]; auto.
  right. left. apply Qeq_bool_iff, H.
Qed.

Lemma score_ltb_not_nan (x y : score) :
  score_ltb x y = true -> is_nan x = false /\ is_nan y = false.
Proof. destruct x, y; simpl; intro; split; congruence. Qed.

Lemma score_eqb_refl (x : score) : is_nan x = false -> score_eqb x x = true.
Proof.
  destruct x as [| |a|]; simpl; try congruence.
  intros _. apply Qeq_bool_iff. reflexivity.
Qed.

(** ** The ranking chain keeps the best three *)

Lemma update_leaders_strictly_ranked (s : GWO) (f : score) (wolf : list Q) :
  strictly_ranked s -> strictly_ranked (update_leaders s f wolf).
Proof.
  intros [Hab Hbd]. unfold strictly_ranked. split_chain; simpl.
  - split; [left; assumption | assumption].
  - match goal with H : _ && _ = true |- _ =>
      apply andb_prop in H; destruct H as [Hgt Hlt] end.
    split; left; assumption.
  - match goal with H : _ && _ && _ = true |- _ =>
      apply andb_prop in H; destruct H as [H Hlt];
      apply andb_prop in H; destruct H as [Hga Hgb] end.
    split; [assumption | left; assumption].
  - split; assumption.
Qed.

Lemma update_leaders_obj_func (s : GWO) (f : score) (wolf : list Q) :
  obj_func (update_leaders s f wolf) = obj_func s.
Proof. split_chain; reflexivity. Qed.

Lemma update_leaders_dim (s : GWO) (f : score) (wolf : list Q) :
  dim (update_leaders s f wolf) = dim s.
Proof. split_chain; reflexivity. Qed.

Lemma attained_snoc (s s' : GWO) (log : list (list Q)) (x pos : list Q)
      (sc : score) :
  dim s' = dim s -> obj_func s' = obj_func s ->
  attained s log pos sc -> attained s' (log ++ [x]) pos sc.
Proof.
  intros Hd Hf [[Hp Hs]|[Hin Hv]]; [left|right].
  - rewrite Hd. split; assumption.
  - rewrite Hf. split; [apply in_or_app; left|]; assumption.
Qed.

Lemma attained_new (s : GWO) (log : list (list Q)) (x : list Q) (f : score) :
  obj_func s x = f -> attained s (log ++ [x]) x f.
Proof.
  intro H. right. split; [|exact H].
  apply in_or_app. right. left. reflexivity.
Qed.

Lemma update_leaders_attained (s : GWO) (log : list (list Q))
      (wolf : list Q) :
  leaders_attained s log ->
  leaders_attained (update_leaders s (obj_func s wolf) wolf) (log ++ [wolf]).
Proof.
  intros (Ha & Hb & Hd).
  pose proof (@attained_snoc s (update_leaders s (obj_func s wolf) wolf)
                log wolf) as Hold.
  specialize (fun pos sc => Hold pos sc (update_leaders_dim _ _ _)
                                 (update_leaders_obj_func _ _ _)).
  pose proof (@attained_new (update_leaders s (obj_func s wolf) wolf)
                log wolf (obj_func s wolf)) as Hnew.
  rewrite update_leaders_obj_func in Hnew. specialize (Hnew eq_refl).
  revert Hold Hnew. unfold leaders_attained.
  generalize (obj_func s wolf) as f. intro f. split_chain; simpl;
    intros Hold Hnew; repeat split; auto.
Qed.

Lemma score_ltb_false_trans (x y z : score) :
  score_ltb x z = false -> score_ltb y z = true -> score_ltb x y = false.
Proof.
  intros Hxz Hyz. destruct (score_ltb x y) eqn:E; [|reflexivity].
  rewrite (score_ltb_trans _ _ _ E Hyz) in Hxz. discriminate.
Qed.

(** A wolf the chain does not promote scores no better than the leaders
    it ties with. *)
Lemma unpromoted_below (f a b d : score) :
  score_leb a b = true -> score_leb b d = true ->
  score_ltb f a = false ->
  score_ltb a f && score_ltb f b = false ->
  score_ltb a f && score_ltb b f && score_ltb f d = false ->
  (score_ltb f b = true -> score_eqb f a = true) /\
  (score_ltb f d = true -> score_eqb f a = true \/ score_eqb f b = true).
Proof.
  intros Hab Hbd H1 H2 H3.
  destruct (score_leb_not_nan _ _ Hab) as [Hna Hnb].
  assert (HB : score_ltb f b = true -> score_eqb f a = true).
  { intro Hfb. rewrite Hfb, andb_true_r in H2.
    destruct (score_ltb_not_nan _ _ Hfb) as [Hnf _].
    destruct (score_trichotomy f a Hnf Hna) as [H|[H|H]]; congruence. }
  split; [exact HB|].
  intro Hfd. rewrite Hfd, andb_true_r in H3.
  destruct (score_ltb_not_nan _ _ Hfd) as [Hnf _].
  apply andb_false_iff in H3. destruct H3 as [H3|H3].
  - left. destruct (score_trichotomy f a Hnf Hna) as [H|[H|H]]; congruence.
  - destruct (score_trichotomy f b Hnf Hnb) as [H|[H|H]];
      [left; apply HB, H | right; exact H | congruence].
Qed.

Lemma update_leaders_best_three (s : GWO) (log : list (list Q))
      (wolf : list Q) :
  ordered s -> best_three s log ->
  best_three (update_leaders s (obj_func s wolf) wolf) (log ++ [wolf]).
Proof.
  intros [Hab Hbd] Hbest x Hin. rewrite update_leaders_obj_func.
  apply in_app_or in Hin. destruct Hin as [Hin|[<-|[]]].
  - destruct (Hbest x Hin) as (HA & HB & HC).
    revert HA HB HC. generalize (obj_func s x) as fx.
    generalize (obj_func s wolf) as f. intros f fx HA HB HC.
    unfold update_leaders, score_gtb.
    destruct (score_ltb f (alpha_score s)) eqn:E1; simpl.
    { split; [eapply score_ltb_false_trans; eassumption|].
      split; [congruence|]. intro H. right. apply HB, H. }
    destruct (score_ltb (alpha_score s) f && score_ltb f (beta_score s))
      eqn:E2; simpl.
    { apply andb_prop in E2. destruct E2 as [Haf Hfb].
      split; [exact HA|]. split.
      - intro H. apply HB. eapply score_ltb_trans; eassumption.
      - intro H. left. apply HB, H. }
    destruct (score_ltb (alpha_score s) f && score_ltb (beta_score s) f
              && score_ltb f (delta_score s)) eqn:E3; simpl.
    { apply andb_prop in E3. destruct E3 as [E3 Hfd].
      split; [exact HA|]. split; [exact HB|].
      intro H. apply HC. eapply score_ltb_trans; eassumption. }
    split; [exact HA|]. split; [exact HB | exact HC].
  - generalize (obj_func s wolf) as f. intro f.
    unfold update_leaders, score_gtb.
    destruct (score_ltb f (alpha_score s)) eqn:E1; simpl.
    { destruct (score_ltb_not_nan _ _ E1) as [Hnf _].
      split; [apply score_ltb_irrefl|].
      split; intros _; [|left]; apply score_eqb_refl, Hnf. }
    destruct (score_ltb (alpha_score s) f && score_ltb f (beta_score s))
      eqn:E2; simpl.
    { apply andb_prop in E2. destruct E2 as [Haf Hfb].
      destruct (score_ltb_not_nan _ _ Hfb) as [Hnf _].
      split; [exact E1|]. split.
      - rewrite score_ltb_irrefl. discriminate.
      - intros _. right. apply score_eqb_refl, Hnf. }
    destruct (score_ltb (alpha_score s) f && score_ltb (beta_score s) f
              && score_ltb f (delta_score s)) eqn:E3; simpl.
    { apply andb_prop in E3. destruct E3 as [E3 Hfd].
      apply andb_prop in E3. destruct E3 as [Haf Hbf].
      split; [exact E1|]. split.
      - rewrite (score_ltb_asym _ _ Hbf). discriminate.
      - rewrite score_ltb_irrefl. discriminate. }
    split; [exact E1|].
    apply unpromoted_below with (d := delta_score s); assumption.
Qed.

Lemma step_tracking (w w' : World) :
  step w w' ->
  ordered (self w) /\ strictly_ranked (self w) /\
  leaders_attained (self w) (evaluated w) /\
  best_three (self w) (evaluated w) ->
  ordered (self w') /\ strictly_ranked (self w') /\
  leaders_attained (self w') (evaluated w') /\
  best_three (self w') (evaluated w').
Proof.
  intros Hs (Ho & Hr & Ha & Hb).
  split; [apply (step_ordered Hs Ho)|].
  destruct Hs as [w1 i Hi | a i w1 j Hi Hj | w1].
  - unfold evaluate_wolf. cbv zeta. cbn [self evaluated].
    set (s := self (clip_wolf w1 i)).
    set (wolf := get_row (positions s) i).
    change (evaluated (clip_wolf w1 i)) with (evaluated w1).
    split; [apply update_leaders_strictly_ranked; exact Hr|].
    split; [apply update_leaders_attained; exact Ha|].
    apply update_leaders_best_three; [exact Ho | exact Hb].
  - rewrite update_coordinate_eq.
    split; [exact Hr | split; [exact Ha | exact Hb]].
  - split; [exact Hr | split; [exact Ha | exact Hb]].
Qed.

Lemma reachable_tracking (w0 w : World) :
  ordered (self w0) /\ strictly_ranked (self w0) /\
  leaders_attained (self w0) (evaluated w0) /\
  best_three (self w0) (evaluated w0) ->
  reachable w0 w ->
  ordered (self w) /\ strictly_ranked (self w) /\
  leaders_attained (self w) (evaluated w) /\
  best_three (self w) (evaluated w).
Proof.
  intros H0. induction 1 as [|w w' _ IH Hs]; [exact H0|].
  apply (step_tracking Hs IH).
Qed.

Lemma init_tracking (f : list Q -> score) (lower upper : Q) (d n m : Z)
      (g : nat) (w0 : World) :
  init f lower upper d n m g = inr w0 ->
  ordered (self w0) /\ strictly_ranked (self w0) /\
  leaders_attained (self w0) (evaluated w0) /\
  best_three (self w0) (evaluated w0).
Proof.
  intro H. split; [eapply init_ordered, H|].
  apply init_inr in H.
  destruct H as (_ & _ & Hc & _ & Hl & _ & _ & Hev).
  unfold config in Hc. injection Hc as _ _ _ Hd _ _.
  unfold leaders in Hl. injection Hl as Hap Has Hbp Hbs Hdp Hds.
  unfold strictly_ranked, leaders_attained, attained, best_three.
  rewrite Hap, Has, Hbp, Hbs, Hdp, Hds, Hd, Hev.
  split; [split; right; reflexivity|].
  split; [repeat split; left; split; reflexivity|].
  intros x [].
Qed.

(** ** The leaders are the best candidates evaluated so far *)

(** In every state of a run the leader scores are strictly ranked: Alpha's
    score is strictly below Beta's unless Beta is still at the
    constructor's [+infinity], and Beta's is strictly below Delta's
    unless Delta is still at [+infinity].  No two leaders found by the
    search share a score. *)
Theorem leaders_strictly_ranked
        (f : list Q -> score) (lower upper : Q) (d n m : Z) (g : nat)
        (w0 w : World) :
  init f lower upper d n m g = inr w0 ->
  reachable w0 w ->
  (score_ltb (alpha_score (self w)) (beta_score (self w)) = true \/
   beta_score (self w) = PosInf) /\
  (score_ltb (beta_score (self w)) (delta_score (self w)) = true \/
   delta_score (self w) = PosInf).
Proof.
  intros H Hw.
  apply (reachable_tracking (init_tracking _ _ _ _ _ _ _ H) Hw).
Qed.

(** In every state of a run each leader is either the constructor's
    [(zeros(dim), +infinity)] or a vector the objective has received,
    stored with exactly the fitness the objective returns for it. *)
Theorem leaders_are_evaluated_candidates
        (f : list Q -> score) (lower upper : Q) (d n m : Z) (g : nat)
        (w0 w : World) :
  init f lower upper d n m g = inr w0 ->
  reachable w0 w ->
  ((alpha_pos (self w) = zeros d /\ alpha_score (self w) = PosInf) \/
   (In (alpha_pos (self w)) (evaluated w) /\
    f (alpha_pos (self w)) = alpha_score (self w))) /\
  ((beta_pos (self w) = zeros d /\ beta_score (self w) = PosInf) \/
   (In (beta_pos (self w)) (evaluated w) /\
    f (beta_pos (self w)) = beta_score (self w))) /\
  ((delta_pos (self w) = zeros d /\ delta_score (self w) = PosInf) \/
   (In (delta_pos (self w)) (evaluated w) /\
    f (delta_pos (self w)) = delta_score (self w))).
Proof.
  intros H Hw.
  pose proof (reachable_tracking (init_tracking _ _ _ _ _ _ _ H) Hw)
    as (_ & _ & Ha & _).
  pose proof (reachable_config Hw) as Hc.
  pose proof (init_inr _ _ _ _ _ _ _ H) as (_ & _ & Hc0 & _).
  rewrite Hc0 in Hc. unfold config in Hc. injection Hc as Hf _ _ Hd _ _.
  unfold leaders_attained, attained in Ha. rewrite Hf, Hd in Ha. exact Ha.
Qed.

(** In every state of a run, among all the vectors the objective has
    received: none scores strictly below [alpha_score]; one that scores
    strictly below [beta_score] has exactly Alpha's score; one that scores
    strictly below [delta_score] has exactly Alpha's or Beta's score.  So
    the leader scores are the three smallest distinct fitness values seen
    so far. *)
Theorem leaders_hold_three_smallest_scores
        (f : list Q -> score) (lower upper : Q) (d n m : Z) (g : nat)
        (w0 w : World) (x : list Q) :
  init f lower upper d n m g = inr w0 ->
  reachable w0 w ->
  In x (evaluated w) ->
  score_ltb (f x) (alpha_score (self w)) = false /\
  (score_ltb (f x) (beta_score (self w)) = true ->
   score_eqb (f x) (alpha_score (self w)) = true) /\
  (score_ltb (f x) (delta_score (self w)) = true ->
   score_eqb (f x) (alpha_score (self w)) = true \/
   score_eqb (f x) (beta_score (self w)) = true).
Proof.
  intros H Hw Hx.
  pose proof (reachable_tracking (init_tracking _ _ _ _ _ _ _ H) Hw)
    as (_ & _ & _ & Hb).
  pose proof (reachable_config Hw) as Hc.
  pose proof (init_inr _ _ _ _ _ _ _ H) as (_ & _ & Hc0 & _).
  rewrite Hc0 in Hc. unfold config in Hc. injection Hc as Hf _ _ _ _ _.
  specialize (Hb x Hx). rewrite Hf in Hb. exact Hb.
Qed.

(** ** The evaluation loop as a whole *)

Lemma map_nth_seq (A B : Type) (h : A -> B) (d : A) (l : list A) :
  map (fun i => h (nth i l d)) (seq 0 (length l)) = map h l.
Proof.
  induction l as [|x l IH]; [reflexivity|].
  cbn [length seq map nth]. f_equal.
  rewrite <- seq_shift, map_map. exact IH.
Qed.

(** After the turns [0 .. c-1] of the evaluation loop: these rows are
    clipped, the others are untouched, and the objective has received the
    clipped rows in index order. *)
Lemma evaluate_prefix (w : World) (c : nat) :
  (c <= length (positions (self w)))%nat ->
  let w' := fold_left evaluate_wolf (seq 0 c) w in
  let cl := fun row => clip row (lb (self w)) (ub (self w)) in
  config (self w') = config (self w) /\
  length (positions (self w')) = length (positions (self w)) /\
  (forall i, get_row (positions (self w')) i
             = if (i <? c)%nat then cl (get_row (positions (self w)) i)
               else get_row (positions (self w)) i) /\
  evaluated w'
  = evaluated w
    ++ map (fun i => cl (get_row (positions (self w)) i)) (seq 0 c) /\
  rng w' = rng w.
Proof.
  induction c as [|c IH]; intro Hc.
  - cbv zeta. cbn [seq fold_left map]. rewrite app_nil_r.
    repeat split; reflexivity.
  - cbv zeta. rewrite fold_left_seq_S.
    destruct IH as (IHc & IHl & IHr & IHe & IHg); [lia|].
    set (x := fold_left evaluate_wolf (seq 0 c) w) in *.
    rewrite evaluate_wolf_config, evaluate_wolf_positions, length_set_nth.
    rewrite evaluate_wolf_evaluated, evaluate_wolf_rng.
    pose proof (config_fields IHc) as (_ & Hlb & Hub & _).
    assert (Hrow : get_row (positions (self (clip_wolf x c))) c
                   = clip (get_row (positions (self w)) c)
                          (lb (self w)) (ub (self w))).
    { rewrite clipped_row by lia. rewrite IHr, Nat.ltb_irrefl, Hlb, Hub.
      reflexivity. }
    split; [exact IHc|]. split; [exact IHl|]. split; [|split].
    + intro i. unfold get_row at 1.
      destruct (Nat.eq_dec i c) as [->|Hne].
      * rewrite nth_set_nth_eq by lia.
        assert (E : (c <? S c)%nat = true) by (apply Nat.ltb_lt; lia).
        rewrite E, IHr, Nat.ltb_irrefl, Hlb, Hub. reflexivity.
      * rewrite nth_set_nth_neq by congruence.
        fold (get_row (positions (self x)) i). rewrite IHr.
        destruct (Nat.ltb_spec i c) as [Hlt|Hge];
          destruct (Nat.ltb_spec i (S c)) as [Hlt'|Hge'];
          try lia; reflexivity.
    + rewrite Hrow, IHe, seq_S, map_app, app_assoc. reflexivity.
    + exact IHg.
Qed.

(** One pass of the evaluation loop clips every row of [positions] in
    place, hands the clipped rows to the objective in index order, one
    call per wolf, and draws no random number. *)
Theorem evaluation_pass_clips_and_evaluates_each_row
        (f : list Q -> score) (lower upper : Q) (d n m : Z) (g : nat)
        (w0 w : World) :
  init f lower upper d n m g = inr w0 ->
  reachable w0 w ->
  positions (self (evaluate_all w))
  = map (fun row => clip row lower upper) (positions (self w)) /\
  evaluated (evaluate_all w)
  = evaluated w ++ map (fun row => clip row lower upper)
                       (positions (self w)) /\
  rng (evaluate_all w) = rng w.
Proof.
  intros H Hw.
  pose proof (reachable_shape (init_shape _ _ _ _ _ _ _ H) Hw) as (Hp & _).
  pose proof (reachable_config Hw) as Hc.
  pose proof (init_inr _ _ _ _ _ _ _ H) as (_ & _ & Hc0 & _).
  rewrite Hc0 in Hc. unfold config in Hc. injection Hc as _ Hlb Hub _ _ _.
  destruct (@evaluate_prefix w (length (positions (self w))) (le_n _))
    as (_ & Hl & Hr & He & Hg).
  assert (Hall : fold_left evaluate_wolf
                           (seq 0 (length (positions (self w)))) w
                 = evaluate_all w).
  { unfold evaluate_all, range. rewrite Hp. reflexivity. }
  rewrite Hall in Hl, Hr, He, Hg. rewrite Hlb, Hub in Hr, He.
  split; [|split].
  - apply nth_ext with (d := []) (d' := []).
    + rewrite length_map. exact Hl.
    + intros i Hi. rewrite Hl in Hi.
      fold (get_row (positions (self (evaluate_all w))) i).
      rewrite Hr.
      assert (E : (i <? length (positions (self w)))%nat = true)
        by (apply Nat.ltb_lt; exact Hi).
      rewrite E. unfold get_row.
      change [] with ((fun row => clip row lower upper) []) at 2.
      rewrite map_nth. reflexivity.
  - rewrite He. f_equal. unfold get_row.
    apply map_nth_seq with (h := fun row => clip row lower upper).
  - exact Hg.
Qed.

(** ** Clipping, coordinate by coordinate *)

Lemma Qle_bool_false (a b : Q) : Qle_bool a b = false -> b < a.
Proof. intro E. apply Qltb_lt. rewrite E. reflexivity. Qed.

Lemma clip1_cases (x lower upper : Q) :
  lower <= upper ->
  (x < lower -> clip1 x lower upper == lower) /\
  (upper < x -> clip1 x lower upper == upper) /\
  (in_bounds lower upper x -> clip1 x lower upper == x).
Proof.
  intro H. unfold clip1, maximum, minimum, in_bounds.
  destruct (Qle_bool x lower) eqn:E1.
  - apply Qle_bool_iff in E1.
    destruct (Qle_bool upper lower) eqn:E2.
    + apply Qle_bool_iff in E2.
      split; [intro; lra|]. split; [intro; lra|]. intro; lra.
    + apply Qle_bool_false in E2.
      split; [intro; reflexivity|]. split; [intro; lra|]. intro; lra.
  - apply Qle_bool_false in E1.
    destruct (Qle_bool upper x) eqn:E2.
    + apply Qle_bool_iff in E2.
      split; [intro; lra|]. split; [intro; reflexivity|]. intro; lra.
    + apply Qle_bool_false in E2.
      split; [intro; lra|]. split; [intro; lra|]. intro; reflexivity.
Qed.


Lemma cell_clip_wolf (w : World) (i j : nat) :
  (i < length (positions (self w)))%nat ->
  (j < length (get_row (positions (self w)) i))%nat ->
  cell (clip_wolf w i) i j
  = clip1 (cell w i j) (lb (self w)) (ub (self w)).
Proof.
  intros Hi Hj. unfold cell. rewrite clipped_row by exact Hi.
  unfold clip, get.
  rewrite nth_indep with (d' := clip1 0 (lb (self w)) (ub (self w)))
    by (rewrite length_map; exact Hj).
  apply map_nth with (f := fun x => clip1 x (lb (self w)) (ub (self w))).
Qed.

(** In every state of a run with [lower <= upper], the clip of wolf [i]
    sets a coordinate below [lower] to [lower], a coordinate above
    [upper] to [upper], and leaves a coordinate inside the box at its
    value. *)
Theorem clip_pulls_to_nearest_bound
        (f : list Q -> score) (lower upper : Q) (d n m : Z) (g : nat)
        (w0 w : World) (i j : nat) :
  init f lower upper d n m g = inr w0 ->
  lower <= upper ->
  reachable w0 w ->
  (i < Z.to_nat n)%nat -> (j < Z.to_nat d)%nat ->
  (cell w i j < lower -> cell (clip_wolf w i) i j == lower) /\
  (upper < cell w i j -> cell (clip_wolf w i) i j == upper) /\
  (in_bounds lower upper (cell w i j) ->
   cell (clip_wolf w i) i j == cell w i j).
Proof.
  intros H Hb Hw Hi Hj.
  pose proof (reachable_shape (init_shape _ _ _ _ _ _ _ H) Hw)
    as (Hp & Hr & _).
  pose proof (reachable_config Hw) as Hc.
  pose proof (init_inr _ _ _ _ _ _ _ H) as (_ & _ & Hc0 & _).
  rewrite Hc0 in Hc. unfold config in Hc. injection Hc as _ Hlb Hub Hd Hn _.
  rewrite Hd, Hn in *.
  rewrite cell_clip_wolf.
  - rewrite Hlb, Hub. apply clip1_cases, Hb.
  - lia.
  - erewrite length_get_row; [exact Hj | exact Hr | lia].
Qed.


(** ** The initial pack *)



(** ** The sphere function *)



(** ** The result of a run *)

Lemma alpha_best_after_iterations
      (f : list Q -> score) (lower upper : Q) (d n m : Z) (g : nat)
      (w0 : World) (k : nat) :
  (forall x, exists q, f x = Fin q) ->
  init f lower upper d n m g = inr w0 ->
  (1 <= n)%Z ->
  let w := iterate (S k) w0 in
  exists q,
    alpha_score (self w) = Fin q /\
    In (alpha_pos (self w)) (evaluated w) /\
    f (alpha_pos (self w)) = Fin q /\
    forall x, In x (evaluated w) -> score_leb (Fin q) (f x) = true.
Proof.
  intros Hfin H Hn w.
  assert (Hw : reachable w0 w) by apply reachable_iterate.
  pose proof (reachable_tracking (init_tracking _ _ _ _ _ _ _ H) Hw)
    as (_ & _ & (Ha & _) & Hb).
  pose proof (reachable_config Hw) as Hc.
  pose proof (init_inr _ _ _ _ _ _ _ H)
    as (_ & _ & Hc0 & _ & _ & _ & _ & Hev).
  rewrite Hc0 in Hc. unfold config in Hc. injection Hc as Hf _ _ _ _ _.
  unfold best_three in Hb. unfold attained in Ha. rewrite Hf in Ha, Hb.
  assert (Hlen : length (evaluated w) = (S k * Z.to_nat n)%nat).
  { subst w. rewrite iterate_count, Hev.
    unfold config in Hc0. injection Hc0 as _ _ _ _ -> _. reflexivity. }
  destruct (evaluated w) as [|x0 log] eqn:Elog.
  { simpl in Hlen. lia. }
  destruct Ha as [[_ Hinf]|[Hin Hval]].
  - exfalso. destruct (Hb x0 (or_introl eq_refl)) as (HA & _).
    destruct (Hfin x0) as [q0 Hq0]. rewrite Hq0, Hinf in HA. discriminate.
  - destruct (Hfin (alpha_pos (self w))) as [q Hq].
    exists q. rewrite <- Hval, Hq.
    split; [reflexivity|]. split; [exact Hin|]. split; [reflexivity|].
    intros x Hx. destruct (Hb x Hx) as (HA & _).
    rewrite <- Hval, Hq in HA. destruct (Hfin x) as [qx Hqx].
    rewrite Hqx in *. simpl in *. apply negb_false_iff in HA. exact HA.
Qed.

(** With an objective whose values are all finite and at least one wolf,
    after any positive number of iterations [alpha_pos] is one of the
    vectors the objective has received, [alpha_score] is exactly its
    fitness, and no vector the objective has received scores less: the
    optimizer returns the best candidate it has evaluated. *)
Theorem alpha_is_best_evaluated_candidate
        (f : list Q -> score) (lower upper : Q) (d n m : Z) (g : nat)
        (w0 : World) (k : nat) :
  (forall x, exists q, f x = Fin q) ->
  init f lower upper d n m g = inr w0 ->
  (1 <= n)%Z ->
  let w := iterate (S k) w0 in
  exists q,
    alpha_score (self w) = Fin q /\
    In (alpha_pos (self w)) (evaluated w) /\
    f (alpha_pos (self w)) = Fin q /\
    forall x, In x (evaluated w) -> score_leb (Fin q) (f x) = true.
Proof. apply alpha_best_after_iterations. Qed.



(** ** Calling [optimize] again *)

Lemma reachable_alpha_leb (w w' : World) :
  ordered (self w) -> reachable w w' ->
  score_leb (alpha_score (self w')) (alpha_score (self w)) = true.
Proof.
  intros Ho Hw. induction Hw as [|w1 w2 Hw IH Hs].
  - apply score_leb_refl. destruct Ho as [Hab _].
    apply score_leb_not_nan in Hab. tauto.
  - destruct (step_alpha_cases Hs) as [E|Hlt].
    + rewrite E. exact IH.
    + eapply score_leb_trans; [apply score_ltb_leb, Hlt | exact IH].
Qed.

(** A second call of [optimize] on the same object does not start over:
    it runs [max_iter] further iterations from the pack and the leaders
    the first call left, and appends their scores to the same curve.
    The curve then has [2 * max_iter] entries, begins with the curve of
    the first call, still never goes up, and Alpha's score is no worse
    than after the first call. *)
Theorem second_call_continues_the_run
        (f : list Q -> score) (lower upper : Q) (d n m : Z) (g : nat)
        (w0 : World) :
  init f lower upper d n m g = inr w0 ->
  let w1 := optimize w0 in
  let w2 := optimize w1 in
  length (convergence_curve (self w2)) = (2 * Z.to_nat m)%nat /\
  firstn (Z.to_nat m) (convergence_curve (self w2))
  = convergence_curve (self w1) /\
  non_increasing (convergence_curve (self w2)) /\
  score_leb (alpha_score (self w2)) (alpha_score (self w1)) = true.
Proof.
  intros H w1 w2.
  pose proof (init_inr _ _ _ _ _ _ _ H) as (_ & _ & Hc0 & _ & _ & Hcv & _).
  assert (Hm0 : max_iter (self w0) = m).
  { unfold config in Hc0. injection Hc0 as _ _ _ _ _ ->. reflexivity. }
  assert (Hr1 : reachable w0 w1).
  { subst w1. rewrite optimize_iterate. apply reachable_iterate. }
  assert (Hr12 : reachable w1 w2).
  { subst w2. rewrite optimize_iterate. apply reachable_iterate. }
  assert (Hm1 : max_iter (self w1) = m).
  { pose proof (reachable_config Hr1) as Hc. apply config_fields in Hc.
    destruct Hc as (_ & _ & _ & _ & _ & ->). exact Hm0. }
  assert (Hl1 : length (convergence_curve (self w1)) = Z.to_nat m).
  { subst w1. rewrite optimize_iterate, iterate_curve_length, Hcv, Hm0.
    reflexivity. }
  split; [|split; [|split]].
  - subst w2. rewrite optimize_iterate, iterate_curve_length, Hl1, Hm1. lia.
  - destruct (reachable_curve_prefix Hr12) as [l Hl].
    rewrite Hl, <- Hl1, firstn_app, Nat.sub_diag, firstn_all. cbn.
    apply app_nil_r.
  - apply (reachable_curve_invariant (w0 := w0)).
    + eapply init_curve_invariant, H.
    + eapply reachable_trans; eassumption.
  - apply reachable_alpha_leb; [|exact Hr12].
    apply (reachable_ordered (w0 := w0)); [eapply init_ordered, H|exact Hr1].
Qed.

(** ** What a run never changes *)

(** In every state of a run the fields [obj_func], [lb], [ub], [dim],
    [pop_size] and [max_iter] are the constructor's arguments, [positions]
    has [wolf_count] rows of [dim] coordinates and the three leader
    positions have [dim] coordinates: every index the loops use is in
    range. *)
Theorem configuration_and_shapes_are_kept
        (f : list Q -> score) (lower upper : Q) (d n m : Z) (g : nat)
        (w0 w : World) :
  init f lower upper d n m g = inr w0 ->
  reachable w0 w ->
  config (self w) = (f, lower, upper, d, n, m) /\
  length (positions (self w)) = Z.to_nat n /\
  Forall (fun row => length row = Z.to_nat d) (positions (self w)) /\
  length (alpha_pos (self w)) = Z.to_nat d /\
  length (beta_pos (self w)) = Z.to_nat d /\
  length (delta_pos (self w)) = Z.to_nat d.
Proof.
  intros H Hw.
  pose proof (reachable_shape (init_shape _ _ _ _ _ _ _ H) Hw) as Hs.
  pose proof (reachable_config Hw) as Hc.
  pose proof (init_inr _ _ _ _ _ _ _ H) as (_ & _ & Hc0 & _).
  rewrite Hc0 in Hc. split; [exact Hc|].
  unfold config in Hc. injection Hc as _ _ _ Hd Hn _.
  unfold well_shaped in Hs. rewrite Hd, Hn in Hs. exact Hs.
Qed.

(** ** The generator's state *)

Lemma fold_left_measure (A B : Type) (mu : A -> nat) (c : nat)
      (f : A -> B -> A) (l : list B) (a : A) :
  (forall x b, mu (f x b) = (mu x + c)%nat) ->
  mu (fold_left f l a) = (mu a + c * length l)%nat.
Proof.
  intro Hf; revert a; induction l as [|b l IH]; simpl; intro a; [lia|].
  rewrite IH, Hf. lia.
Qed.

Lemma update_wolf_config (a : Q) (w : World) (i : nat) :
  config (self (update_wolf a w i)) = config (self w).
Proof.
  unfold update_wolf.
  apply fold_left_invariant
    with (P := fun x => config (self x) = config (self w)); [|reflexivity].
  intros x j Hx. rewrite update_coordinate_eq. exact Hx.
Qed.

Lemma update_wolf_prefix_rng (a : Q) (w : World) (i c : nat) :
  rng (fold_left (update_coordinate a i) (seq 0 c) w) = (rng w + 6 * c)%nat.
Proof.
  rewrite fold_left_measure with (mu := rng) (c := 6%nat).
  - rewrite length_seq. reflexivity.
  - intros x j. rewrite update_coordinate_eq. reflexivity.
Qed.

Lemma update_wolf_rng (a : Q) (w : World) (i : nat) :
  rng (update_wolf a w i) = (rng w + 6 * Z.to_nat (dim (self w)))%nat.
Proof. apply update_wolf_prefix_rng. Qed.

Lemma update_positions_prefix_facts (a : Q) (w : World) (r : nat) :
  let w' := fold_left (update_wolf a) (seq 0 r) w in
  config (self w') = config (self w) /\
  rng w' = (rng w + 6 * Z.to_nat (dim (self w)) * r)%nat.
Proof.
  induction r as [|r IH]; cbv zeta.
  - cbn [seq fold_left]. split; [reflexivity | lia].
  - rewrite fold_left_seq_S. destruct IH as [IHc IHr].
    rewrite update_wolf_config, update_wolf_rng, IHr.
    split; [exact IHc|].
    apply config_fields in IHc. destruct IHc as (_ & _ & _ & -> & _). lia.
Qed.

Lemma evaluate_all_config (w : World) :
  config (self (evaluate_all w)) = config (self w).
Proof.
  unfold evaluate_all.
  apply fold_left_invariant
    with (P := fun x => config (self x) = config (self w)); [|reflexivity].
  intros x i Hx. rewrite evaluate_wolf_config. exact Hx.
Qed.

Lemma evaluate_all_rng (w : World) : rng (evaluate_all w) = rng w.
Proof.
  unfold evaluate_all.
  apply fold_left_invariant with (P := fun x => rng x = rng w);
    [|reflexivity].
  intros x i Hx. rewrite evaluate_wolf_rng. exact Hx.
Qed.

Lemma iteration_rng (w : World) (t : nat) :
  rng (iteration w t)
  = (rng w + 6 * Z.to_nat (dim (self w)) * Z.to_nat (pop_size (self w)))%nat.
Proof.
  unfold iteration, record_best, set_self. cbn [rng].
  unfold update_positions, range.
  destruct (update_positions_prefix_facts
              (decay t (max_iter (self (evaluate_all w)))) (evaluate_all w)
              (Z.to_nat (pop_size (self (evaluate_all w))))) as [_ Hr].
  rewrite Hr, evaluate_all_rng.
  pose proof (evaluate_all_config w) as Hc. apply config_fields in Hc.
  destruct Hc as (_ & _ & _ & -> & -> & _). reflexivity.
Qed.

Lemma iterate_rng (w : World) (k : nat) :
  rng (iterate k w)
  = (rng w + k * (6 * Z.to_nat (dim (self w))
                  * Z.to_nat (pop_size (self w))))%nat.
Proof.
  induction k as [|k IH]; [cbn; lia|].
  rewrite iterate_S, iteration_rng, IH.
  pose proof (iterate_config k w) as Hc. apply config_fields in Hc.
  destruct Hc as (_ & _ & _ & -> & -> & _). lia.
Qed.

(** The constructor draws [wolf_count * dim] numbers and every iteration
    draws [6 * wolf_count * dim] more: after [k] iterations the generator
    has advanced by [wolf_count * dim * (1 + 6 * k)], whatever the
    objective and the bounds. *)
Theorem random_draws_of_a_run
        (f : list Q -> score) (lower upper : Q) (d n m : Z) (g : nat)
        (w0 : World) (k : nat) :
  init f lower upper d n m g = inr w0 ->
  rng (iterate k w0)
  = (g + Z.to_nat n * Z.to_nat d * (1 + 6 * k))%nat /\
  rng (optimize w0)
  = (g + Z.to_nat n * Z.to_nat d * (1 + 6 * Z.to_nat m))%nat.
Proof.
  intro H.
  pose proof (init_inr _ _ _ _ _ _ _ H) as (_ & _ & Hc0 & _ & _ & _ & Hg & _).
  unfold config in Hc0. injection Hc0 as _ _ _ Hd Hn Hm.
  assert (Hk : forall j, rng (iterate j w0)
               = (g + Z.to_nat n * Z.to_nat d * (1 + 6 * j))%nat).
  { intro j. rewrite iterate_rng, Hg, Hd, Hn. lia. }
  split; [apply Hk|]. rewrite optimize_iterate, Hm. apply Hk.
Qed.

(** ** How far the raw update can go *)






(** ** Ties go to the first *)

Lemma score_leb_ltb_trans (x y z : score) :
  score_leb x y = true -> score_ltb y z = true -> score_ltb x z = true.
Proof.
  destruct x as [| |a|], y as [| |b|], z as [| |c|]; simpl; try congruence.
  rewrite !Qltb_lt, Qle_bool_iff. apply Qle_lt_trans.
Qed.

Lemma score_ltb_false_leb_false (x a f : score) :
  score_ltb x a = false -> score_ltb f a = true -> score_leb x f = false.
Proof.
  intros Hxa Hfa. destruct (score_leb x f) eqn:E; [|reflexivity].
  rewrite (score_leb_ltb_trans _ _ _ E Hfa) in Hxa. discriminate.
Qed.

Lemma update_leaders_first_best (s : GWO) (log : list (list Q))
      (wolf : list Q) :
  best_three s log -> first_best s log ->
  first_best (update_leaders s (obj_func s wolf) wolf) (log ++ [wolf]).
Proof.
  intros Hbest Hfirst. unfold first_best.
  rewrite update_leaders_obj_func.
  unfold update_leaders, score_gtb.
  destruct (score_ltb (obj_func s wolf) (alpha_score s)) eqn:E1; cbn.
  - right. exists log, []. split; [reflexivity|]. split; [reflexivity|].
    intros x Hx. destruct (Hbest x Hx) as (HA & _).
    eapply score_ltb_false_leb_false; eassumption.
  - assert (Hkeep : alpha_score s = PosInf \/
              exists before after,
                log ++ [wolf] = before ++ alpha_pos s :: after /\
                obj_func s (alpha_pos s) = alpha_score s /\
                forall x, In x before ->
                          score_leb (obj_func s x) (alpha_score s) = false).
    { destruct Hfirst as [Hinf|(before & after & Hlog & Hval & Hbefore)];
        [left; exact Hinf|right].
      exists before, (after ++ [wolf]). rewrite Hlog, <- app_assoc.
      split; [reflexivity|]. split; assumption. }
    destruct (score_ltb (alpha_score s) (obj_func s wolf)
              && score_ltb (obj_func s wolf) (beta_score s)); cbn;
      [exact Hkeep|].
    destruct (score_ltb (alpha_score s) (obj_func s wolf)
              && score_ltb (beta_score s) (obj_func s wolf)
              && score_ltb (obj_func s wolf) (delta_score s)); cbn;
      exact Hkeep.
Qed.

Lemma reachable_first_best (w0 w : World) :
  ordered (self w0) /\ strictly_ranked (self w0) /\
  leaders_attained (self w0) (evaluated w0) /\
  best_three (self w0) (evaluated w0) ->
  first_best (self w0) (evaluated w0) ->
  reachable w0 w -> first_best (self w) (evaluated w).
Proof.
  intros Ht0 H0. induction 1 as [|w w' Hw IH Hs]; [exact H0|].
  pose proof (reachable_tracking Ht0 Hw) as (_ & _ & _ & Hb).
  destruct Hs as [w1 i Hi | a i w1 j Hi Hj | w1].
  - unfold evaluate_wolf. cbv zeta. cbn [self evaluated].
    change (evaluated (clip_wolf w1 i)) with (evaluated w1).
    apply update_leaders_first_best; [exact Hb | exact IH].
  - rewrite update_coordinate_eq. exact IH.
  - exact IH.
Qed.

(** Among candidates of equal fitness the first one evaluated stays
    Alpha: in every state of a run where the search has found an Alpha,
    [alpha_pos] occurs in the sequence of vectors given to the objective,
    [alpha_score] is its fitness, and every vector evaluated before that
    occurrence fails [f x <= alpha_score] (it scores strictly worse, or
    NaN). *)
Theorem alpha_is_the_first_best_candidate
        (f : list Q -> score) (lower upper : Q) (d n m : Z) (g : nat)
        (w0 w : World) :
  init f lower upper d n m g = inr w0 ->
  reachable w0 w ->
  alpha_score (self w) <> PosInf ->
  exists before after,
    evaluated w = before ++ alpha_pos (self w) :: after /\
    f (alpha_pos (self w)) = alpha_score (self w) /\
    forall x, In x before -> score_leb (f x) (alpha_score (self w)) = false.
Proof.
  intros H Hw Hne.
  pose proof (init_tracking _ _ _ _ _ _ _ H) as Ht0.
  pose proof (init_inr _ _ _ _ _ _ _ H) as (_ & _ & Hc0 & _ & Hl & _).
  assert (H0 : first_best (self w0) (evaluated w0)).
  { left. unfold leaders in Hl. injection Hl as _ -> _ _ _ _. reflexivity. }
  pose proof (reachable_first_best Ht0 H0 Hw) as Hfb.
  pose proof (reachable_config Hw) as Hc.
  rewrite Hc0 in Hc. unfold config in Hc. injection Hc as Hf _ _ _ _ _.
  unfold first_best in Hfb. rewrite Hf in Hfb.
  destruct Hfb as [Hinf|Hex]; [contradiction | exact Hex].
Qed.

(** ** An empty pack *)

(** With [wolf_count = 0], which the constructor accepts, [optimize]
    never calls the objective, leaves the leaders at the constructor's
    [(zeros, +infinity)], draws no random number, and returns a curve of
    [max_iter] entries that are all [+infinity]. *)
Theorem empty_pack_finds_nothing
        (f : list Q -> score) (lower upper : Q) (d m : Z) (g : nat)
        (w0 : World) :
  init f lower upper d 0 m g = inr w0 ->
  evaluated (optimize w0) = [] /\
  leaders (self (optimize w0))
  = (zeros d, PosInf, zeros d, PosInf, zeros d, PosInf) /\
  rng (optimize w0) = g /\
  convergence_curve (self (optimize w0)) = repeat PosInf (Z.to_nat m).
Proof.
  intro H.
  pose proof (init_inr _ _ _ _ _ _ _ H)
    as (_ & _ & Hc0 & _ & Hl & Hcv & Hg & Hev).
  assert (Hn0 : pop_size (self w0) = 0%Z /\ max_iter (self w0) = m /\
                dim (self w0) = d).
  { unfold config in Hc0. injection Hc0 as _ _ _ -> -> ->. tauto. }
  destruct Hn0 as (Hn0 & Hm0 & Hd0).
  assert (Hnoeval : forall k, evaluated (iterate k w0) = []).
  { intro k. apply length_zero_iff_nil.
    rewrite iterate_count, Hev, Hn0. cbn. lia. }
  assert (Hlead : forall k, leaders (self (iterate k w0))
                            = (zeros d, PosInf, zeros d, PosInf,
                               zeros d, PosInf)).
  { intro k.
    pose proof (reachable_tracking (init_tracking _ _ _ _ _ _ _ H)
                                   (reachable_iterate w0 k))
      as (_ & _ & (Ha & Hb & Hdl) & _).
    pose proof (iterate_config k w0) as Hc. apply config_fields in Hc.
    destruct Hc as (_ & _ & _ & Hd & _).
    unfold attained in Ha, Hb, Hdl. rewrite Hnoeval, Hd, Hd0 in Ha, Hb, Hdl.
    unfold leaders.
    destruct Ha as [[-> ->]|[[] _]]. destruct Hb as [[-> ->]|[[] _]].
    destruct Hdl as [[-> ->]|[[] _]]. reflexivity. }
  rewrite optimize_iterate, Hm0.
  split; [apply Hnoeval|]. split; [apply Hlead|]. split.
  - rewrite iterate_rng, Hg, Hn0. cbn. lia.
  - generalize (Z.to_nat m) as k. induction k as [|k IH].
    + cbn. exact Hcv.
    + rewrite iterate_S, iteration_curve, <- iterate_S, IH.
      pose proof (Hlead (S k)) as HS. unfold leaders in HS.
      injection HS as _ -> _ _ _ _.
      change [PosInf] with (repeat PosInf 1). rewrite <- repeat_app.
      f_equal. lia.
Qed.

End Properties.

(** * Two generators *)

Section Reproducibility.

Variables rs rs' : nat -> Q.

Local Abbreviation agree := (same_draws rs rs').

Lemma uniform_matrix_agree (lower upper : Q) (rows cols g : nat) :
  agree g (g + rows * cols) ->
  uniform_matrix rs lower upper rows cols g
  = uniform_matrix rs' lower upper rows cols g.
Proof.
  intro Hag. unfold uniform_matrix.
  apply map_ext_in. intros i Hi. apply map_ext_in. intros j Hj.
  apply in_seq in Hi, Hj. rewrite Hag; [reflexivity|]. nia.
Qed.

Lemma update_coordinate_agree (a : Q) (i : nat) (w : World) (j : nat) :
  agree (rng w) (rng w + 6) ->
  update_coordinate rs a i w j = update_coordinate rs' a i w j.
Proof.
  intro Hag. rewrite !update_coordinate_eq. unfold spec_new_coordinate.
  rewrite !Hag by lia. reflexivity.
Qed.

Lemma update_wolf_prefix_agree (a : Q) (i : nat) (w : World) (c : nat) :
  agree (rng w) (rng w + 6 * c) ->
  fold_left (update_coordinate rs a i) (seq 0 c) w
  = fold_left (update_coordinate rs' a i) (seq 0 c) w.
Proof.
  induction c as [|c IH]; intro Hag; [reflexivity|].
  rewrite !fold_left_seq_S, <- IH.
  - apply update_coordinate_agree. rewrite update_wolf_prefix_rng.
    intros k Hk. apply Hag. lia.
  - intros k Hk. apply Hag. lia.
Qed.

Lemma update_wolf_agree (a : Q) (w : World) (i : nat) :
  agree (rng w) (rng w + 6 * Z.to_nat (dim (self w))) ->
  update_wolf rs a w i = update_wolf rs' a w i.
Proof. apply update_wolf_prefix_agree. Qed.

Lemma update_positions_prefix_agree (a : Q) (w : World) (r : nat) :
  agree (rng w) (rng w + 6 * Z.to_nat (dim (self w)) * r) ->
  fold_left (update_wolf rs a) (seq 0 r) w
  = fold_left (update_wolf rs' a) (seq 0 r) w.
Proof.
  induction r as [|r IH]; intro Hag; [reflexivity|].
  rewrite !fold_left_seq_S, <- IH.
  - destruct (update_positions_prefix_facts rs a w r) as [Hc Hr].
    apply config_fields in Hc. destruct Hc as (_ & _ & _ & Hd & _).
    apply update_wolf_agree. rewrite Hr, Hd.
    intros k Hk. apply Hag. lia.
  - intros k Hk. apply Hag. lia.
Qed.

Lemma iteration_agree (w : World) (t : nat) :
  agree (rng w)
        (rng w + 6 * Z.to_nat (dim (self w))
                 * Z.to_nat (pop_size (self w))) ->
  iteration rs w t = iteration rs' w t.
Proof.
  intro Hag. unfold iteration. f_equal.
  unfold update_positions, range.
  apply update_positions_prefix_agree.
  rewrite evaluate_all_rng.
  pose proof (evaluate_all_config w) as Hc. apply config_fields in Hc.
  destruct Hc as (_ & _ & _ & -> & -> & _). exact Hag.
Qed.

Lemma iterate_agree (w : World) (k : nat) :
  agree (rng w)
        (rng w + k * (6 * Z.to_nat (dim (self w))
                      * Z.to_nat (pop_size (self w)))) ->
  iterate rs k w = iterate rs' k w.
Proof.
  induction k as [|k IH]; intro Hag; [reflexivity|].
  rewrite !iterate_S, <- IH.
  - apply iteration_agree. rewrite iterate_rng.
    pose proof (iterate_config rs k w) as Hc. apply config_fields in Hc.
    destruct Hc as (_ & _ & _ & -> & -> & _).
    intros j Hj. apply Hag. lia.
  - intros j Hj. apply Hag. lia.
Qed.

(** A run reads the generator only through the draws it consumes: two
    generators that return the same values from draw [g] up to draw
    [g + wolf_count * dim * (1 + 6 * k) - 1] give the same pack at
    construction and the same state after [k] iterations: positions,
    leaders, curve and the sequence of vectors given to the objective. *)
Theorem run_depends_only_on_its_draws
        (f : list Q -> score) (lower upper : Q) (d n m : Z) (g : nat)
        (w0 : World) (k : nat) :
  (forall i, (g <= i < g + Z.to_nat n * Z.to_nat d * (1 + 6 * k))%nat ->
             rs i = rs' i) ->
  init rs f lower upper d n m g = inr w0 ->
  init rs' f lower upper d n m g = inr w0 /\
  iterate rs k w0 = iterate rs' k w0.
Proof.
  intros Hag H.
  pose proof (init_inr _ _ _ _ _ _ _ _ H)
    as (_ & _ & Hc0 & _ & _ & _ & Hg & _).
  unfold config in Hc0. injection Hc0 as _ _ _ Hd Hn _.
  split.
  - rewrite <- H. unfold init.
    destruct ((n <? 0)%Z || (d <? 0)%Z); [reflexivity|].
    rewrite uniform_matrix_agree; [reflexivity|].
    intros i Hi. apply Hag. nia.
  - apply iterate_agree. rewrite Hd, Hn, Hg.
    intros i Hi. apply Hag. nia.
Qed.

End Reproducibility.

(** * The claims on concrete runs *)

(** ** C1: invalid configurations are accepted *)



(** ** C5: the coefficient is never negative *)



(** The same line on doubles: strictly positive at every iteration of
    every run of up to 200 iterations. *)
Lemma decay64_positive_up_to_200 :
  Binary64.decay64_positive_up_to 200 = true.
Proof. vm_compute. reflexivity. Qed.

(** ** Runs of the sample configurations *)

Lemma leaders_ordered_after_ranking_witness :
  init sample_stream sphere_function (-10) 10 2 3 2 0 = inr sample_world /\
  ordered (self (evaluate_all (iterate sample_stream 1 sample_world))).
Proof.
  split; [reflexivity|].
  apply (@leaders_ordered_after_ranking
           sample_stream sphere_function (-10) 10 2 3 2 0 sample_world 1).
  reflexivity.
Defined.

Lemma convergence_curve_non_increasing_witness :
  init sample_stream sphere_function (-10) 10 2 3 2 0 = inr sample_world /\
  non_increasing
    (convergence_curve (self (optimize sample_stream sample_world))) /\
  (forall w w',
     reachable sample_stream sample_world w -> step sample_stream w w' ->
     alpha_score (self w') = alpha_score (self w) \/
     score_ltb (alpha_score (self w')) (alpha_score (self w)) = true).
Proof.
  split; [reflexivity|].
  apply (@convergence_curve_non_increasing
           sample_stream sphere_function (-10) 10 2 3 2 0 sample_world).
  reflexivity.
Defined.


Lemma convergence_curve_length_and_append_only_witness :
  init sample_stream sphere_function (-10) 10 2 3 2 0 = inr sample_world /\
  Z.of_nat (length (convergence_curve
                      (self (optimize sample_stream sample_world))))
  = Z.max 0 2 /\
  (forall k, length (convergence_curve
                       (self (iterate sample_stream k sample_world))) = k) /\
  (forall k, convergence_curve
               (self (iterate sample_stream (S k) sample_world))
             = convergence_curve (self (iterate sample_stream k sample_world))
               ++ [alpha_score
                     (self (iterate sample_stream (S k) sample_world))]) /\
  (forall w w',
     reachable sample_stream sample_world w ->
     reachable sample_stream w w' ->
     exists l, convergence_curve (self w')
               = convergence_curve (self w) ++ l).
Proof.
  split; [reflexivity|].
  apply (@convergence_curve_length_and_append_only
           sample_stream sphere_function (-10) 10 2 3 2 0 sample_world).
  reflexivity.
Defined.


Lemma tie_with_alpha_or_beta_changes_no_leader_witness :
  let w := evaluate_wolf five_world 0 in
  init sample_stream five (-10) 10 2 3 2 0 = inr five_world /\
  reachable sample_stream five_world w /\
  (score_eqb (obj_func (self w)
                       (get_row (positions (self (clip_wolf w 1))) 1))
             (alpha_score (self w)) = true \/
   score_eqb (obj_func (self w)
                       (get_row (positions (self (clip_wolf w 1))) 1))
             (beta_score (self w)) = true) /\
  leaders (self (evaluate_wolf w 1)) = leaders (self w).
Proof.
  intro w.
  assert (Hr : reachable sample_stream five_world w).
  { eapply reach_step; [apply reach_start|].
    apply step_evaluate. apply in_range. cbn. lia. }
  assert (Ht : score_eqb (obj_func (self w)
                            (get_row (positions (self (clip_wolf w 1))) 1))
                         (alpha_score (self w)) = true \/
               score_eqb (obj_func (self w)
                            (get_row (positions (self (clip_wolf w 1))) 1))
                         (beta_score (self w)) = true).
  { left. reflexivity. }
  split; [reflexivity|]. split; [exact Hr|]. split; [exact Ht|].
  apply (@tie_with_alpha_or_beta_changes_no_leader
           sample_stream five (-10) 10 2 3 2 0 five_world w 1);
    [reflexivity | exact Hr | exact Ht].
Defined.

Lemma constant_five_objective_curve_witness :
  (forall x, five x = Fin 5) /\
  init sample_stream five (-10) 10 2 3 2 0 = inr five_world /\
  (1 <= 3)%Z /\
  alpha_score (self (evaluate_all five_world)) = Fin 5 /\
  (forall k, alpha_score (self (iterate sample_stream (S k) five_world))
             = Fin 5) /\
  Forall (fun x => x = Fin 5)
         (convergence_curve (self (optimize sample_stream five_world))).
Proof.
  split; [reflexivity|]. split; [reflexivity|]. split; [lia|].
  apply (@constant_five_objective_curve
           sample_stream five (-10) 10 2 3 2 0 five_world);
    [reflexivity | reflexivity | lia].
Defined.

Lemma constant_objective_never_promotes_beta_delta_witness :
  let w := iterate sample_stream 2 five_world in
  (forall x, five x = Fin 5) /\
  init sample_stream five (-10) 10 2 3 2 0 = inr five_world /\
  reachable sample_stream five_world w /\
  beta_score (self w) = PosInf /\ delta_score (self w) = PosInf /\
  beta_pos (self w) = zeros 2 /\ delta_pos (self w) = zeros 2 /\
  (forall j, get (beta_pos (self w)) j = 0 /\
             get (delta_pos (self w)) j = 0).
Proof.
  intro w.
  assert (Hr : reachable sample_stream five_world w)
    by apply reachable_iterate.
  split; [reflexivity|]. split; [reflexivity|]. split; [exact Hr|].
  apply (@constant_objective_never_promotes_beta_delta
           sample_stream five (Fin 5) (-10) 10 2 3 2 0 five_world w);
    [reflexivity | reflexivity | exact Hr].
Defined.

(** * The further properties on concrete runs *)


Lemma leaders_strictly_ranked_witness :
  let w := iterate sample_stream 2 sample_world in
  init sample_stream sphere_function (-10) 10 2 3 2 0 = inr sample_world /\
  reachable sample_stream sample_world w /\
  (score_ltb (alpha_score (self w)) (beta_score (self w)) = true \/
   beta_score (self w) = PosInf) /\
  (score_ltb (beta_score (self w)) (delta_score (self w)) = true \/
   delta_score (self w) = PosInf).
Proof.
  intro w.
  assert (Hr : reachable sample_stream sample_world w)
    by apply reachable_iterate.
  split; [reflexivity|]. split; [exact Hr|].
  apply (@leaders_strictly_ranked
           sample_stream sphere_function (-10) 10 2 3 2 0 sample_world w);
    [reflexivity | exact Hr].
Defined.

Lemma leaders_are_evaluated_candidates_witness :
  let w := iterate sample_stream 2 sample_world in
  init sample_stream sphere_function (-10) 10 2 3 2 0 = inr sample_world /\
  reachable sample_stream sample_world w /\
  ((alpha_pos (self w) = zeros 2 /\ alpha_score (self w) = PosInf) \/
   (In (alpha_pos (self w)) (evaluated w) /\
    sphere_function (alpha_pos (self w)) = alpha_score (self w))) /\
  ((beta_pos (self w) = zeros 2 /\ beta_score (self w) = PosInf) \/
   (In (beta_pos (self w)) (evaluated w) /\
    sphere_function (beta_pos (self w)) = beta_score (self w))) /\
  ((delta_pos (self w) = zeros 2 /\ delta_score (self w) = PosInf) \/
   (In (delta_pos (self w)) (evaluated w) /\
    sphere_function (delta_pos (self w)) = delta_score (self w))).
Proof.
  intro w.
  assert (Hr : reachable sample_stream sample_world w)
    by apply reachable_iterate.
  split; [reflexivity|]. split; [exact Hr|].
  apply (@leaders_are_evaluated_candidates
           sample_stream sphere_function (-10) 10 2 3 2 0 sample_world w);
    [reflexivity | exact Hr].
Defined.

Lemma leaders_hold_three_smallest_scores_witness :
  let w := evaluate_wolf sample_world 0 in
  let x := get_row (positions (self (clip_wolf sample_world 0))) 0 in
  init sample_stream sphere_function (-10) 10 2 3 2 0 = inr sample_world /\
  reachable sample_stream sample_world w /\
  In x (evaluated w) /\
  score_ltb (sphere_function x) (alpha_score (self w)) = false /\
  (score_ltb (sphere_function x) (beta_score (self w)) = true ->
   score_eqb (sphere_function x) (alpha_score (self w)) = true) /\
  (score_ltb (sphere_function x) (delta_score (self w)) = true ->
   score_eqb (sphere_function x) (alpha_score (self w)) = true \/
   score_eqb (sphere_function x) (beta_score (self w)) = true).
Proof.
  intros w x.
  assert (Hr : reachable sample_stream sample_world w).
  { eapply reach_step; [apply reach_start|].
    apply step_evaluate. apply in_range. cbn. lia. }
  assert (Hx : In x (evaluated w)) by (left; reflexivity).
  split; [reflexivity|]. split; [exact Hr|]. split; [exact Hx|].
  apply (@leaders_hold_three_smallest_scores
           sample_stream sphere_function (-10) 10 2 3 2 0 sample_world w x);
    [reflexivity | exact Hr | exact Hx].
Defined.

Lemma evaluation_pass_clips_and_evaluates_each_row_witness :
  let w := iterate sample_stream 1 sample_world in
  init sample_stream sphere_function (-10) 10 2 3 2 0 = inr sample_world /\
  reachable sample_stream sample_world w /\
  positions (self (evaluate_all w))
  = map (fun row => clip row (-10) 10) (positions (self w)) /\
  evaluated (evaluate_all w)
  = evaluated w ++ map (fun row => clip row (-10) 10) (positions (self w)) /\
  rng (evaluate_all w) = rng w.
Proof.
  intro w.
  assert (Hr : reachable sample_stream sample_world w)
    by apply reachable_iterate.
  split; [reflexivity|]. split; [exact Hr|].
  apply (@evaluation_pass_clips_and_evaluates_each_row
           sample_stream sphere_function (-10) 10 2 3 2 0 sample_world w);
    [reflexivity | exact Hr].
Defined.

Lemma clip_pulls_to_nearest_bound_witness :
  let w := iterate sample_stream 1 sample_world in
  init sample_stream sphere_function (-10) 10 2 3 2 0 = inr sample_world /\
  -10 <= 10 /\
  reachable sample_stream sample_world w /\
  (0 < Z.to_nat 3)%nat /\ (1 < Z.to_nat 2)%nat /\
  (cell w 0 1 < -10 -> cell (clip_wolf w 0) 0 1 == -10) /\
  (10 < cell w 0 1 -> cell (clip_wolf w 0) 0 1 == 10) /\
  (in_bounds (-10) 10 (cell w 0 1) ->
   cell (clip_wolf w 0) 0 1 == cell w 0 1).
Proof.
  intro w.
  assert (Hr : reachable sample_stream sample_world w)
    by apply reachable_iterate.
  assert (Hb : -10 <= 10) by (unfold Qle; simpl; lia).
  split; [reflexivity|]. split; [exact Hb|]. split; [exact Hr|].
  split; [cbn; lia|]. split; [cbn; lia|].
  apply (@clip_pulls_to_nearest_bound
           sample_stream sphere_function (-10) 10 2 3 2 0 sample_world w 0 1);
    [reflexivity | exact Hb | exact Hr | cbn; lia | cbn; lia].
Defined.



Lemma alpha_is_best_evaluated_candidate_witness :
  let w := iterate sample_stream 2 sample_world in
  (forall x, exists q, sphere_function x = Fin q) /\
  init sample_stream sphere_function (-10) 10 2 3 2 0 = inr sample_world /\
  (1 <= 3)%Z /\
  exists q,
    alpha_score (self w) = Fin q /\
    In (alpha_pos (self w)) (evaluated w) /\
    sphere_function (alpha_pos (self w)) = Fin q /\
    forall x, In x (evaluated w) ->
              score_leb (Fin q) (sphere_function x) = true.
Proof.
  intro w.
  assert (Hf : forall x, exists q, sphere_function x = Fin q)
    by (intro x; eexists; reflexivity).
  split; [exact Hf|]. split; [reflexivity|]. split; [lia|].
  apply (@alpha_is_best_evaluated_candidate
           sample_stream sphere_function (-10) 10 2 3 2 0 sample_world 1);
    [exact Hf | reflexivity | lia].
Defined.



Lemma second_call_continues_the_run_witness :
  let w1 := optimize sample_stream sample_world in
  let w2 := optimize sample_stream w1 in
  init sample_stream sphere_function (-10) 10 2 3 2 0 = inr sample_world /\
  length (convergence_curve (self w2)) = (2 * Z.to_nat 2)%nat /\
  firstn (Z.to_nat 2) (convergence_curve (self w2))
  = convergence_curve (self w1) /\
  non_increasing (convergence_curve (self w2)) /\
  score_leb (alpha_score (self w2)) (alpha_score (self w1)) = true.
Proof.
  intros w1 w2. split; [reflexivity|].
  apply (@second_call_continues_the_run
           sample_stream sphere_function (-10) 10 2 3 2 0 sample_world).
  reflexivity.
Defined.

Lemma configuration_and_shapes_are_kept_witness :
  let w := iterate sample_stream 2 sample_world in
  init sample_stream sphere_function (-10) 10 2 3 2 0 = inr sample_world /\
  reachable sample_stream sample_world w /\
  config (self w) = (sphere_function, -10, 10, 2%Z, 3%Z, 2%Z) /\
  length (positions (self w)) = Z.to_nat 3 /\
  Forall (fun row => length row = Z.to_nat 2) (positions (self w)) /\
  length (alpha_pos (self w)) = Z.to_nat 2 /\
  length (beta_pos (self w)) = Z.to_nat 2 /\
  length (delta_pos (self w)) = Z.to_nat 2.
Proof.
  intro w.
  assert (Hr : reachable sample_stream sample_world w)
    by apply reachable_iterate.
  split; [reflexivity|]. split; [exact Hr|].
  apply (@configuration_and_shapes_are_kept
           sample_stream sphere_function (-10) 10 2 3 2 0 sample_world w);
    [reflexivity | exact Hr].
Defined.

Lemma random_draws_of_a_run_witness :
  init sample_stream sphere_function (-10) 10 2 3 2 0 = inr sample_world /\
  rng (iterate sample_stream 1 sample_world)
  = (0 + Z.to_nat 3 * Z.to_nat 2 * (1 + 6 * 1))%nat /\
  rng (optimize sample_stream sample_world)
  = (0 + Z.to_nat 3 * Z.to_nat 2 * (1 + 6 * Z.to_nat 2))%nat.
Proof.
  split; [reflexivity|].
  apply (@random_draws_of_a_run
           sample_stream sphere_function (-10) 10 2 3 2 0 sample_world 1).
  reflexivity.
Defined.

Lemma run_depends_only_on_its_draws_witness :
  (forall i, (0 <= i < 0 + Z.to_nat 3 * Z.to_nat 2 * (1 + 6 * 2))%nat ->
             sample_stream i = other_stream i) /\
  init sample_stream sphere_function (-10) 10 2 3 2 0 = inr sample_world /\
  init other_stream sphere_function (-10) 10 2 3 2 0 = inr sample_world /\
  iterate sample_stream 2 sample_world = iterate other_stream 2 sample_world.
Proof.
  assert (Hag : forall i,
             (0 <= i < 0 + Z.to_nat 3 * Z.to_nat 2 * (1 + 6 * 2))%nat ->
             sample_stream i = other_stream i).
  { intros i Hi. cbn in Hi. unfold other_stream.
    destruct (Nat.ltb_spec i 1000) as [Hlt|Hge]; [reflexivity | lia]. }
  split; [exact Hag|]. split; [reflexivity|].
  apply (@run_depends_only_on_its_draws
           sample_stream other_stream sphere_function (-10) 10 2 3 2 0
           sample_world 2);
    [exact Hag | reflexivity].
Defined.


Lemma alpha_is_the_first_best_candidate_witness :
  let w := evaluate_wolf sample_world 0 in
  init sample_stream sphere_function (-10) 10 2 3 2 0 = inr sample_world /\
  reachable sample_stream sample_world w /\
  alpha_score (self w) <> PosInf /\
  exists before after,
    evaluated w = before ++ alpha_pos (self w) :: after /\
    sphere_function (alpha_pos (self w)) = alpha_score (self w) /\
    forall x, In x before ->
              score_leb (sphere_function x) (alpha_score (self w)) = false.
Proof.
  intro w.
  assert (Hr : reachable sample_stream sample_world w).
  { eapply reach_step; [apply reach_start|].
    apply step_evaluate. apply in_range. cbn. lia. }
  assert (Hne : alpha_score (self w) <> PosInf) by (cbn; discriminate).
  split; [reflexivity|]. split; [exact Hr|]. split; [exact Hne|].
  apply (@alpha_is_the_first_best_candidate
           sample_stream sphere_function (-10) 10 2 3 2 0 sample_world w);
    [reflexivity | exact Hr | exact Hne].
Defined.

Lemma empty_pack_finds_nothing_witness :
  init sample_stream sphere_function (-10) 10 2 0 2 0 = inr empty_world /\
  evaluated (optimize sample_stream empty_world) = [] /\
  leaders (self (optimize sample_stream empty_world))
  = (zeros 2, PosInf, zeros 2, PosInf, zeros 2, PosInf) /\
  rng (optimize sample_stream empty_world) = 0%nat /\
  convergence_curve (self (optimize sample_stream empty_world))
  = repeat PosInf (Z.to_nat 2).
Proof.
  split; [reflexivity|].
  apply (@empty_pack_finds_nothing
           sample_stream sphere_function (-10) 10 2 2 0 empty_world).
  reflexivity.
Defined.
